(** * Safe-haven hedging research scripts: bootstrap simulator, quantile
      path extractor, return categorizer and efficient-price screen.

    Shallow embedding of [src/research/safe-heaven.py],
    [src/research/safe-heaven-spy.py] and
    [src/research/safe-heaven-eff-price-opt.py], with the [for] variant
    of the expiry loop of [src/research/safe-heaven-eff-price-opt-bs.py].

    Numbers.  The scripts compute on NumPy [float64] values.  They are
    idealised here as exact rationals [Q]; "the same number" is [Qeq]
    (written [==]).  Rounding, overflow, infinities and NaN are outside
    the model.  Python [int]s are [Z].

    Effects.  A Python exception is the name of its class; a computation
    that may raise returns a [result].  The NumPy global generator
    ([np.random.seed], [np.random.choice]) is an explicit state threaded
    through every call that draws. *)

From Stdlib Require Import String.
From Stdlib Require Import List ZArith QArith Qabs Qround Qpower Lia Lqa Bool.
From Stdlib Require Import Sorted Permutation.
Import ListNotations.
Open Scope Q_scope.

(** ** Python exceptions and fallible computations *)

Module Py.

Definition exn := string.

Definition IndexError : exn := "IndexError"%string.
Definition ValueError : exn := "ValueError"%string.
Definition ZeroDivisionError : exn := "ZeroDivisionError"%string.

Inductive result (A : Type) : Type :=
| Ok (a : A)
| Raise (e : exn).
Arguments Ok {A} a.
Arguments Raise {A} e.

Definition bind {A B} (r : result A) (k : A -> result B) : result B :=
  match r with
  | Ok a => k a
  | Raise e => Raise e
  end.

Fixpoint mapM {A B} (f : A -> result B) (l : list A) : result (list B) :=
  match l with
  | [] => Ok []
  | x :: xs =>
      bind (f x) (fun y => bind (mapM f xs) (fun ys => Ok (y :: ys)))
  end.

Definition succeeds {A} (r : result A) : Prop := exists a, r = Ok a.

End Py.
Import Py.

Notation "x <- c ;; k" := (Py.bind c (fun x => k))
  (at level 61, c at next level, right associativity).

(** ** NumPy arrays and the operations the scripts call *)

Module Np.

(** A two-dimensional array: its rows, and the length of axis 1, which
    is part of the shape even when there is no row. *)
Record ndarray2 (A : Type) : Type := mk_ndarray2 {
  ncols : nat;
  rows : list (list A)
}.
Arguments mk_ndarray2 {A} ncols rows.
Arguments ncols {A} _.
Arguments rows {A} _.

Definition nrows {A} (m : ndarray2 A) : nat := length (rows m).

Definition rectangular {A} (m : ndarray2 A) : Prop :=
  Forall (fun r => length r = ncols m) (rows m).

(** The position an index [i] names in an array of length [n]: negative
    indices count from the end. *)
Definition position (n : nat) (i : Z) : Z :=
  if (i <? 0)%Z then (Z.of_nat n + i)%Z else i.

(** [a[i]] for one integer [i]: anything outside [-n, n) raises
    [IndexError]. *)
Definition getitem {A} (a : list A) (i : Z) : result A :=
  let pos := position (length a) i in
  if ((0 <=? pos) && (pos <? Z.of_nat (length a)))%Z then
    match nth_error a (Z.to_nat pos) with
    | Some x => Ok x
    | None => Raise IndexError
    end
  else Raise IndexError.

(** [a[idx]] for an integer index array [idx]: the result has the shape
    of [idx]. *)
Definition take {A} (a : list A) (idx : ndarray2 Z) : result (ndarray2 A) :=
  rs <- mapM (mapM (getitem a)) (rows idx) ;;
  Ok (mk_ndarray2 (ncols idx) rs).

(** Elementwise operations on arrays. *)
Definition amap {A B} (f : A -> B) (m : ndarray2 A) : ndarray2 B :=
  mk_ndarray2 (ncols m) (map (map f) (rows m)).

Fixpoint zip_with {A B C} (f : A -> B -> C) (l : list A) (l' : list B)
  : list C :=
  match l, l' with
  | x :: xs, y :: ys => f x y :: zip_with f xs ys
  | _, _ => []
  end.

(** [m + m'] for two arrays of one shape (all the scripts need). *)
Definition aadd (m m' : ndarray2 Q) : ndarray2 Q :=
  mk_ndarray2 (ncols m) (zip_with (zip_with Qplus) (rows m) (rows m')).

(** [np.cumprod] of a one-dimensional array: [out[0] = a[0]],
    [out[k] = out[k-1] * a[k]]. *)
Fixpoint cumprod_from (acc : Q) (l : list Q) : list Q :=
  match l with
  | [] => []
  | x :: xs => let acc' := acc * x in acc' :: cumprod_from acc' xs
  end.

Definition cumprod (l : list Q) : list Q :=
  match l with
  | [] => []
  | x :: xs => x :: cumprod_from x xs
  end.

(** [np.cumprod(m, axis=1)]. *)
Definition cumprod_axis1 (m : ndarray2 Q) : ndarray2 Q :=
  mk_ndarray2 (ncols m) (map cumprod (rows m)).

(** [m[:, -1]]: the last column; [IndexError] when axis 1 is empty. *)
Definition last_column (m : ndarray2 Q) : result (list Q) :=
  match ncols m with
  | O => Raise IndexError
  | S _ => mapM (fun r => getitem r (-1)%Z) (rows m)
  end.

(** [a.argmin()]: index of the first occurrence of the minimum;
    [ValueError] on an empty array. *)
Fixpoint argmin_from (best : Q) (besti : nat) (i : nat) (l : list Q) : nat :=
  match l with
  | [] => besti
  | x :: xs =>
      if Qlt_le_dec x best then argmin_from x i (S i) xs
      else argmin_from best besti (S i) xs
  end.

Definition argmin (l : list Q) : result nat :=
  match l with
  | [] => Raise ValueError
  | x :: xs => Ok (argmin_from x 0%nat 1%nat xs)
  end.

(** Sorting, for [np.quantile]. *)
Fixpoint insert_sorted (x : Q) (l : list Q) : list Q :=
  match l with
  | [] => [x]
  | y :: ys => if Qlt_le_dec y x then y :: insert_sorted x ys else x :: l
  end.

Fixpoint sort (l : list Q) : list Q :=
  match l with
  | [] => []
  | x :: xs => insert_sorted x (sort xs)
  end.

(** NumPy's linear interpolation between [a] and [b] at [t]: computed
    from the left for [t < 1/2] and from the right otherwise. *)
Definition lerp (a b t : Q) : Q :=
  if Qlt_le_dec t (1 # 2) then a + (b - a) * t
  else b - (b - a) * (1 - t).

(** [np.quantile(a, q)] with the default method (linear): [q] outside
    [0, 1] raises [ValueError]; an empty [a] raises [IndexError]; else
    the value at the virtual index [q * (n - 1)] of the sorted array,
    interpolated between its two neighbours. *)
Definition quantile (a : list Q) (q : Q) : result Q :=
  if Qlt_le_dec q 0 then Raise ValueError
  else if Qlt_le_dec 1 q then Raise ValueError
  else
    match a with
    | [] => Raise IndexError
    | x0 :: _ =>
        let s := sort a in
        let n := length a in
        let h := q * inject_Z (Z.of_nat n - 1) in
        let j := Z.to_nat (Qfloor h) in
        let g := h - inject_Z (Qfloor h) in
        let lo := nth j s x0 in
        let hi := nth (Nat.min (S j) (n - 1)) s x0 in
        Ok (lerp lo hi g)
    end.

End Np.

Import Np.

(** ** NumPy's global random generator *)

Module NpRandom.

(** The generator behind [np.random]: NumPy's own code, taken as an
    interface.  [seed_state n] is the state [np.random.seed(n)]
    installs; [randint M s] is one bounded draw from state [s], with
    the state it leaves. *)
Class BitGenerator : Type := {
  rng_state : Type;
  seed_state : Z -> rng_state;
  randint : Z -> rng_state -> Z * rng_state
}.

(** Every draw below a positive bound [M] lies in [0, M). *)
Definition lawful (G : BitGenerator) : Prop :=
  forall M s, (0 < M)%Z -> (0 <= fst (randint M s) < M)%Z.

(** A computation that reads and advances the global generator and may
    raise. *)
Definition Rand {G : BitGenerator} (A : Type) : Type :=
  rng_state -> result A * rng_state.

Definition rbind {G : BitGenerator} {A B} (c : Rand A) (k : A -> Rand B)
  : Rand B :=
  fun s =>
    match c s with
    | (Ok a, s') => k a s'
    | (Raise e, s') => (Raise e, s')
    end.

Definition lift {G : BitGenerator} {A} (r : result A) : Rand A :=
  fun s => (r, s).


(** [k] draws in a row, then [r] rows of [c] draws: the order in which
    a C-contiguous array is filled. *)
Fixpoint draw_row {G : BitGenerator} (M : Z) (k : nat) (s : rng_state)
  : list Z * rng_state :=
  match k with
  | O => ([], s)
  | S k' =>
      let (x, s1) := randint M s in
      let (xs, s2) := draw_row M k' s1 in
      (x :: xs, s2)
  end.

Fixpoint draw_rows {G : BitGenerator} (M : Z) (r c : nat) (s : rng_state)
  : list (list Z) * rng_state :=
  match r with
  | O => ([], s)
  | S r' =>
      let (row, s1) := draw_row M c s in
      let (rest, s2) := draw_rows M r' c s1 in
      (row :: rest, s2)
  end.

(** [randint(0, M, size=(d0, d1))]: a negative dimension raises
    [ValueError]; an empty size returns the empty array without
    touching the generator. *)
Definition randint_array {G : BitGenerator} (M d0 d1 : Z)
  : Rand (ndarray2 Z) :=
  fun s =>
    if ((d0 <? 0) || (d1 <? 0))%Z then (Raise ValueError, s)
    else if (d0 * d1 =? 0)%Z then
      (Ok (mk_ndarray2 (Z.to_nat d1) (repeat [] (Z.to_nat d0))), s)
    else
      let (m, s') := draw_rows M (Z.to_nat d0) (Z.to_nat d1) s in
      (Ok (mk_ndarray2 (Z.to_nat d1) m), s').

(** The first argument of [np.random.choice]: an [int] or a
    one-dimensional array. *)
Inductive population : Type :=
| PopInt (n : Z)
| PopArray (a : list Z).

Definition pop_size (a : population) : Z :=
  match a with
  | PopInt n => n
  | PopArray l => Z.of_nat (length l)
  end.

(** [np.random.choice(a, size=(d0, d1), replace=True)]: an empty
    population with a non-empty size raises [ValueError]; otherwise
    positions are drawn below the population size and, for an array,
    replaced by its elements at those positions. *)
Definition choice {G : BitGenerator} (a : population) (d0 d1 : Z)
  : Rand (ndarray2 Z) :=
  fun s =>
    if ((pop_size a <=? 0) && negb (d0 * d1 =? 0))%Z
    then (Raise ValueError, s)
    else
      rbind (randint_array (pop_size a) d0 d1)
        (fun idx =>
           match a with
           | PopInt _ => lift (Ok idx)
           | PopArray l => lift (take l idx)
           end) s.

(** A small linear congruential generator, to run the model on. *)
Definition lcg : BitGenerator := {|
  rng_state := Z;
  seed_state := fun n => n;
  randint := fun M s =>
    let s' := ((1103515245 * s + 12345) mod 2147483648)%Z in
    ((s' / 65536) mod M, s')%Z
|}.

End NpRandom.
Import NpRandom.

Notation "x <~ c ;; k" := (NpRandom.rbind c (fun x => k))
  (at level 61, c at next level, right associativity).

(** ** The rows of the categorised table [df_agg] *)

Module Pd.

(** One row of the DataFrame the simulators read: its index label, the
    return column ([annual_returns] in safe-heaven.py, [returns] in
    safe-heaven-spy.py) and the [category] column. *)
Record row : Type := mk_row {
  label : Z;
  annual_returns : Q;
  category : Z
}.

Definition DataFrame := list row.

Definition index (data : DataFrame) : list Z := map label data.

(** The default index [RangeIndex(0, M)], as [reset_index] leaves it. *)
Definition default_index (data : DataFrame) : Prop :=
  index data = map Z.of_nat (seq 0 (length data)).

(** A bin edge: a number, or one of NumPy's infinities. *)
Inductive edge : Type :=
| NegInf
| Fin (x : Q)
| PosInf.

Definition edge_ltb (a b : edge) : bool :=
  match a, b with
  | NegInf, NegInf => false
  | NegInf, _ => true
  | Fin _, NegInf => false
  | Fin x, Fin y => if Qlt_le_dec x y then true else false
  | Fin _, PosInf => true
  | PosInf, _ => false
  end.

Definition edge_eqb (a b : edge) : bool :=
  match a, b with
  | NegInf, NegInf => true
  | Fin x, Fin y => Qeq_bool x y
  | PosInf, PosInf => true
  | _, _ => false
  end.

Definition edge_lt (a b : edge) : Prop := edge_ltb a b = true.
Definition edge_le (a b : edge) : Prop := edge_ltb b a = false.

(** [bins.searchsorted(x, side='left')]: the first position whose edge
    is not below [x]. *)
Fixpoint searchsorted_left (bins : list edge) (x : edge) : nat :=
  match bins with
  | [] => O
  | e :: es => if edge_ltb e x then S (searchsorted_left es x) else O
  end.

(** [pd.cut(x, bins, labels=range(len(bins)-1), include_lowest=...)]
    for one value, with the default [right=True]: the code of the bin,
    or [None] for the NaN pandas gives a value outside every bin. *)
Definition cut1 (bins : list edge) (include_lowest : bool) (x : Q)
  : option nat :=
  let ids := searchsorted_left bins (Fin x) in
  let ids :=
    match bins with
    | e0 :: _ => if include_lowest && edge_eqb (Fin x) e0 then 1%nat else ids
    | [] => ids
    end in
  if (ids =? length bins)%nat || (ids =? 0)%nat then None
  else Some (ids - 1)%nat.

(** The bin of a whole column. *)
Definition cut (bins : list edge) (include_lowest : bool) (xs : list Q)
  : list (option nat) :=
  map (cut1 bins include_lowest) xs.

End Pd.
Import Pd.

(** ** The scripts' functions *)

Module SafeHaven.

(** [getQuantilePath] (safe-heaven.py, lines 90-93). *)
Definition getQuantilePath (trajectories : ndarray2 Q) (q : Q)
  : result (Q * list Q) :=
  col <- last_column trajectories ;;
  quantile <- Np.quantile col q ;;
  i <- argmin (map (fun v => Qabs (quantile - v)) col) ;;
  path <- getitem (rows trajectories) (Z.of_nat i) ;;
  Ok (quantile, path).

(** Lines 108-117 of [bitcoinSim] (20-22 of [sp500Sim]): everything
    after the draw, as a function of the drawn array [sims]. *)
Definition trajectories_of (data : DataFrame) (allocation : Q)
    (payoffs : list Q) (sims : ndarray2 Z) : result (ndarray2 Q) :=
  ret_cats <- take (map category data) sims ;;
  rets <- take (map annual_returns data) sims ;;
  let risk_rets := amap (fun r => (1 - allocation) * (r + 1)) rets in
  pc <- take payoffs ret_cats ;;
  let safe_haven_rets := amap (fun p => allocation * p) pc in
  Ok (cumprod_axis1 (aadd risk_rets safe_haven_rets)).

(** [bitcoinSim] (safe-heaven.py, lines 95-117): draws positions below
    [data.index.size]. *)
Definition bitcoinSim {G : BitGenerator} (data : DataFrame)
    (allocation : Q) (payoffs : list Q) (years samples : Z)
  : Rand (ndarray2 Q) :=
  let available_indices := Z.of_nat (length (index data)) in
  sims <~ choice (PopInt available_indices) samples years ;;
  lift (trajectories_of data allocation payoffs sims).

(** [sp500Sim] (safe-heaven-spy.py, lines 14-22): draws elements of
    [data.index] and uses them as positions. *)
Definition sp500Sim {G : BitGenerator} (data : DataFrame)
    (allocation : Q) (payoffs : list Q) (years samples : Z)
  : Rand (ndarray2 Q) :=
  sims <~ choice (PopArray (index data)) samples years ;;
  lift (trajectories_of data allocation payoffs sims).

(** [calcEfficientPrice] (safe-heaven-eff-price-opt.py, lines 29-35).
    The quotient has no rational value when [1 + eff] is zero: Python
    floats raise [ZeroDivisionError] there (NumPy scalars give an
    infinity or NaN, which the model does not have). *)
Definition calcEfficientPrice (K target_price eff : Q) : result Q :=
  if Qeq_bool (1 + eff) 0 then Raise ZeroDivisionError
  else Ok ((K - target_price) / (1 + eff)).

(** One row of the option chain [opt], with the columns the screen
    reads and the one it adds. *)
Record option_row : Type := mk_option_row {
  strike : Q;
  lastPrice : Q;
  eff_price : Q
}.

(** Line 50: [opt['eff_price'] = opt.apply(...)], on (strike,
    lastPrice) pairs. *)
Definition add_eff_price (opt : list (Q * Q)) (target_price eff : Q)
  : result (list option_row) :=
  mapM (fun x =>
          p <- calcEfficientPrice (fst x) target_price eff ;;
          Ok (mk_option_row (fst x) (snd x) p)) opt.

(** Line 52: [opt.loc[opt['lastPrice'] <= opt['eff_price']]]. *)
Definition filtered_opt (opt : list option_row) : list option_row :=
  filter (fun x => Qle_bool (lastPrice x) (eff_price x)) opt.

(** The screen of lines 50-52. *)
Definition screen (opt : list (Q * Q)) (target_price eff : Q)
  : result (list option_row) :=
  rows <- add_eff_price opt target_price eff ;;
  Ok (filtered_opt rows).

End SafeHaven.
Import SafeHaven.

(** ** What the specification's words mean on this model *)

Module Spec.

(** The period factor of one observation. *)
Definition combined (allocation : Q) (payoffs : list Q) (r : row) : Q :=
  (1 - allocation) * (1 + annual_returns r)
  + allocation * nth (Z.to_nat (category r)) payoffs 0.

(** The same factor as the code evaluates it: [r + 1] for [1 + r], and
    the payoff read with NumPy's indexing. *)
Definition period_factor (allocation : Q) (payoffs : list Q) (r : row) : Q :=
  (1 - allocation) * (annual_returns r + 1)
  + allocation
    * nth (Z.to_nat (position (length payoffs) (category r))) payoffs 0.

Definition row0 : row := mk_row 0 0 0.

(** The observation a drawn index [k] selects from the pool. *)
Definition observed (data : DataFrame) (k : Z) : row :=
  nth (Z.to_nat (position (length data) k)) data row0.

(** Product of the first [k] numbers of [l]. *)
Fixpoint prod_upto (k : nat) (l : list Q) : Q :=
  match k, l with
  | S k', x :: xs => x * prod_upto k' xs
  | _, _ => 1
  end.

(** Entry [(i, t)] of [m] is the product of the combined factors of
    the first [t + 1] observations that row [i] of [sims] selects. *)
Definition running_products (allocation : Q) (payoffs : list Q)
    (data : DataFrame) (sims : ndarray2 Z) (m : ndarray2 Q) : Prop :=
  ncols m = ncols sims
  /\ length (rows m) = length (rows sims)
  /\ forall i t,
       (i < length (rows sims))%nat ->
       (t < length (nth i (rows sims) []))%nat ->
       nth t (nth i (rows m) []) 0
       == prod_upto (S t)
            (map (fun k => combined allocation payoffs (observed data k))
               (nth i (rows sims) [])).

(** The terminal value of a path. *)
Definition terminal (path : list Q) : Q := last path 0.

(** The payoff vector has an entry for every category of the pool. *)
Definition covers (payoffs : list Q) (data : DataFrame) : Prop :=
  Forall (fun r => (0 <= category r < Z.of_nat (length payoffs))%Z) data.

(** [k] indexes an array of length [n], from the front or (negative)
    from the end. *)
Definition valid_index (n : nat) (k : Z) : Prop :=
  (0 <= position n k < Z.of_nat n)%Z.

(** The category of every drawn observation is a valid index of the
    payoff vector. *)
Definition payable (payoffs : list Q) (data : DataFrame)
    (sims : ndarray2 Z) : Prop :=
  Forall (Forall (fun k => valid_index (length payoffs)
                             (category (observed data k))))
    (rows sims).

(** Every drawn index is a position of the pool. *)
Definition in_range (M : nat) (sims : ndarray2 Z) : Prop :=
  Forall (Forall (fun k => (0 <= k < Z.of_nat M)%Z)) (rows sims).

(** Two arrays of one shape holding the same numbers. *)
Definition array_eq (m m' : ndarray2 Q) : Prop :=
  ncols m = ncols m' /\ Forall2 (Forall2 Qeq) (rows m) (rows m').

(** Same outcome: the same exception, or the same numbers. *)
Definition outcome_eq (r r' : result (ndarray2 Q)) : Prop :=
  match r, r' with
  | Ok m, Ok m' => array_eq m m'
  | Raise e, Raise e' => e = e'
  | _, _ => False
  end.

(** The boundaries increase strictly from each edge to the next. *)
Definition strictly_increasing (bins : list edge) : Prop :=
  Sorted edge_lt bins.

(** Bin [i] under the two conventions for its end points:
    [edge[i] <= r < edge[i+1]] and [edge[i] < r <= edge[i+1]]. *)
Definition left_closed_bin (bins : list edge) (r : Q) (i : nat) : Prop :=
  edge_le (nth i bins PosInf) (Fin r)
  /\ edge_lt (Fin r) (nth (S i) bins PosInf).

Definition right_closed_bin (bins : list edge) (r : Q) (i : nat) : Prop :=
  edge_lt (nth i bins PosInf) (Fin r)
  /\ edge_le (Fin r) (nth (S i) bins PosInf).


(** The pool read through its own index labels: row [k] is the row of
    [data] at the position the label of row [k] names. *)
Definition relabel (data : DataFrame) : DataFrame :=
  map (fun r => observed data (label r)) data.

(** The error names of the specification's taxonomy. *)
Definition EmptyTrajectory : exn := "EmptyTrajectory"%string.

End Spec.
Import Spec.

(** ** Sample inputs *)

Module Sample.

(** The two-observation pool of the specification's end-to-end
    scenario: returns 0.20 and -0.20 in categories 1 and 0. *)
Definition df2 : DataFrame :=
  [mk_row 0 (1 # 5) 1; mk_row 1 (-1 # 5) 0].

(** The bin edges of safe-heaven.py, line 40. *)
Definition bins : list edge :=
  [NegInf; Fin (-1 # 2); Fin (-3 # 10); Fin (-15 # 100); Fin 0;
   Fin (15 # 100); Fin (3 # 10); Fin (1 # 2); PosInf].

End Sample.

(** ** The table-building lines of the scripts *)

Module Tables.

(** [pd.cut]'s checks of its [bins] argument, before any value is
    binned: an empty list of edges, a decrease from one edge to the
    next, or (unless there are exactly two edges) two equal neighbouring
    edges raise [ValueError]. *)
Fixpoint decreases (bins : list edge) : bool :=
  match bins with
  | a :: (b :: _) as rest => edge_ltb b a || decreases rest
  | _ => false
  end.

Fixpoint equal_neighbours (bins : list edge) : bool :=
  match bins with
  | a :: (b :: _) as rest => edge_eqb a b || equal_neighbours rest
  | _ => false
  end.

Definition pd_cut (bins : list edge) (include_lowest : bool)
    (xs : list Q) : result (list (option nat)) :=
  match bins with
  | [] => Raise ValueError
  | _ =>
      if decreases bins then Raise ValueError
      else if equal_neighbours bins && negb (length bins =? 2)%nat
      then Raise ValueError
      else Ok (cut bins include_lowest xs)
  end.

(** A row of the concatenated table, before the category column is
    made integer: its category may be missing (NaN). *)
Record raw_row : Type := mk_raw_row {
  raw_label : Z;
  raw_return : Q;
  raw_category : option nat
}.

(** [pd.concat([rets, cats, labs], axis=1)] on columns that share the
    index [i, i+1, ...]. *)
Fixpoint concat_columns (i : Z) (rets : list Q) (cats : list (option nat))
  : list raw_row :=
  match rets, cats with
  | r :: rets', c :: cats' =>
      mk_raw_row i r c :: concat_columns (i + 1) rets' cats'
  | _, _ => []
  end.

(** [df.dropna(subset=['category'])]: rows keep their labels. *)
Definition dropna_category (t : list raw_row) : list raw_row :=
  filter (fun r => match raw_category r with
                   | Some _ => true
                   | None => false
                   end) t.

(** [df['category'].astype(int)]: a missing category raises
    [ValueError]. *)
Definition astype_int (t : list raw_row) : result DataFrame :=
  mapM (fun r => match raw_category r with
                 | Some c => Ok (mk_row (raw_label r) (raw_return r)
                                   (Z.of_nat c))
                 | None => Raise ValueError
                 end) t.

(** safe-heaven.py, lines 45-52: cut with [include_lowest=True], drop the
    rows without a category, make the category integer. *)
Definition df_agg_btc (bins : list edge) (annual_returns : list Q)
  : result DataFrame :=
  cats <- pd_cut bins true annual_returns ;;
  astype_int (dropna_category (concat_columns 0 annual_returns cats)).

(** safe-heaven-spy.py, lines 48-52: cut, then make the category integer
    at once. *)
Definition df_agg_spy (bins : list edge) (annual_returns : list Q)
  : result DataFrame :=
  cats <- pd_cut bins false annual_returns ;;
  astype_int (concat_columns 0 annual_returns cats).

End Tables.
Import Tables.

(** ** Calendar dates and the monthly expiries *)

Module Dates.

Definition OverflowError : exn := "OverflowError"%string.

(** A [datetime] reduced to its date: the scripts only shift whole days
    and replace the day, so the time of day of [datetime.now()] rides
    along unchanged and plays no part. *)
Record date : Type := mk_date {
  year : Z;
  month : Z;
  day : Z
}.

Definition is_leap (y : Z) : bool :=
  ((y mod 4 =? 0) && (negb (y mod 100 =? 0) || (y mod 400 =? 0)))%Z.

Definition days_in_month (y m : Z) : Z :=
  if (m =? 2)%Z then (if is_leap y then 29 else 28)%Z
  else if ((m =? 4) || (m =? 6) || (m =? 9) || (m =? 11))%Z then 30%Z
  else 31%Z.

(** A date of the proleptic Gregorian calendar, from year 1 on. *)
Definition valid (d : date) : Prop :=
  (1 <= year d /\ 1 <= month d <= 12
   /\ 1 <= day d <= days_in_month (year d) (month d))%Z.

(** [date.toordinal()]: 1 for 1 January of year 1. *)
Definition days_before_year (y : Z) : Z :=
  ((y - 1) * 365 + (y - 1) / 4 - (y - 1) / 100 + (y - 1) / 400)%Z.

Definition days_before_month (y m : Z) : Z :=
  (nth (Z.to_nat m) [0; 0; 31; 59; 90; 120; 151; 181; 212; 243; 273; 304; 334]
     0
   + (if (2 <? m) && is_leap y then 1 else 0))%Z.

Definition toordinal (d : date) : Z :=
  (days_before_year (year d) + days_before_month (year d) (month d)
   + day d)%Z.

(** [date.weekday()]: Monday is 0, Friday 4. *)
Definition weekday (d : date) : Z := ((toordinal d + 6) mod 7)%Z.

Definition next_day (d : date) : date :=
  if (day d <? days_in_month (year d) (month d))%Z
  then mk_date (year d) (month d) (day d + 1)
  else if (month d <? 12)%Z then mk_date (year d) (month d + 1) 1
  else mk_date (year d + 1) 1 1.

(** [d + timedelta(days=k)] for the non-negative [k] the script adds:
    the date [k] days on, or [OverflowError] beyond year 9999. *)
Definition add_days (d : date) (k : Z) : result date :=
  let d' := Nat.iter (Z.to_nat k) next_day d in
  if (9999 <? year d')%Z then Raise OverflowError else Ok d'.

(** [d.replace(day=1)]. *)
Definition replace_day_1 (d : date) : date :=
  mk_date (year d) (month d) 1.

(** [a < b] on datetimes with the same time of day. *)
Definition date_ltb (a b : date) : bool :=
  ((year a <? year b)
   || ((year a =? year b)
       && ((month a <? month b)
           || ((month a =? month b) && (day a <? day b)))))%Z.

(** [d.strftime('%Y-%m-%d')], for the four-digit years 1000..9999. *)
Definition digit (n : Z) : string :=
  String (Ascii.ascii_of_nat (48 + Z.to_nat (n mod 10))) EmptyString.

Definition strftime_ymd (d : date) : string :=
  (digit (year d / 1000) ++ digit (year d / 100) ++ digit (year d / 10)
   ++ digit (year d) ++ "-" ++ digit (month d / 10) ++ digit (month d)
   ++ "-" ++ digit (day d / 10) ++ digit (day d))%string.

(** The third Friday computed in the loop body from [next_month]. *)
Definition third_friday_from (next_month : date) : result date :=
  let first := replace_day_1 next_month in
  add_days first ((4 - weekday first + 7) mod 7 + 14)%Z.

(** [get_next_n_monthly_expiries] of safe-heaven-eff-price-opt.py (lines
    5-18).  The [while] loop is run on fuel; [None] is "out of fuel". *)
Fixpoint expiries_while (fuel : nat) (today current_month : date) (n : Z)
    (expiries : list string) : option (result (list string)) :=
  if (Z.of_nat (length expiries) <? n)%Z then
    match fuel with
    | O => None
    | S fuel' =>
        match add_days current_month 32 with
        | Raise e => Some (Raise e)
        | Ok next_month =>
            match third_friday_from next_month with
            | Raise e => Some (Raise e)
            | Ok third_friday =>
                expiries_while fuel' today next_month n
                  (if date_ltb today third_friday
                   then expiries ++ [strftime_ymd third_friday]
                   else expiries)
            end
        end
    end
  else Some (Ok expiries).

Definition get_next_n_monthly_expiries (fuel : nat) (today : date) (n : Z)
  : option (result (list string)) :=
  expiries_while fuel today (replace_day_1 today) n [].

(** [get_next_n_monthly_expiries] of safe-heaven-eff-price-opt-bs.py
    (lines 37-49): a [for] loop over [range(n)], no comparison with
    today. *)
Fixpoint expiries_for (k : nat) (current_month : date)
    (expiries : list string) : result (list string) :=
  match k with
  | O => Ok expiries
  | S k' =>
      next_month <- add_days current_month 32 ;;
      third_friday <- third_friday_from next_month ;;
      expiries_for k' next_month (expiries ++ [strftime_ymd third_friday])
  end.

Definition get_next_n_monthly_expiries_bs (today : date) (n : Z)
  : result (list string) :=
  expiries_for (Z.to_nat n) (replace_day_1 today) [].

(** What the function is meant to return: the [k]-th month after a date's
    month, and the third Friday of a month. *)
Definition months_later (d : date) (k : Z) : date :=
  let i := (year d * 12 + (month d - 1) + k)%Z in
  mk_date (i / 12) (i mod 12 + 1) 1.

Definition third_friday_of (first : date) : date :=
  mk_date (year first) (month first)
    (15 + (4 - weekday first) mod 7)%Z.

End Dates.
Import Dates.

(** ** The series the scripts plot *)

Module Plots.

(** [np.minimum] and [np.maximum] of two numbers. *)
Definition minimum (a b : Q) : Q := if Qlt_le_dec b a then b else a.
Definition maximum (a b : Q) : Q := if Qlt_le_dec a b then b else a.

(** [m.min(axis=0)] and [m.max(axis=0)]: the rows reduced by the
    elementwise minimum (maximum), one value per column; [ValueError]
    when there is no row to reduce. *)
Definition min_axis0 (m : ndarray2 Q) : result (list Q) :=
  match rows m with
  | [] => Raise ValueError
  | r :: rs => Ok (fold_left (zip_with minimum) rs r)
  end.

Definition max_axis0 (m : ndarray2 Q) : result (list Q) :=
  match rows m with
  | [] => Raise ValueError
  | r :: rs => Ok (fold_left (zip_with maximum) rs r)
  end.


(** [np.linspace(start, stop, num)] for [num >= 2]: [start + i * step]
    for [i = 0 .. num - 1], with [step = (stop - start) / (num - 1)]. *)
Definition linspace (start stop : Q) (num : nat) : list Q :=
  let step := (stop - start) / inject_Z (Z.of_nat (num - 1)) in
  map (fun i => start + inject_Z (Z.of_nat i) * step) (seq 0 num).

(** [plot_option_payoff] (safe-heaven-spy.py, lines 200-205): the two
    series it plots, [stock_prices] and [payoff]. *)
Definition plot_option_payoff (option_type : string)
    (strike_price premium : Q) : list Q * list Q :=
  let stock_prices :=
    linspace ((1 # 2) * strike_price) ((3 # 2) * strike_price) 100 in
  let payoff :=
    if String.eqb option_type "call"
    then map (fun s => maximum (s - strike_price) 0 - premium) stock_prices
    else map (fun s => maximum (strike_price - s) 0 - premium) stock_prices in
  (stock_prices, payoff).

End Plots.
Import Plots.

(** * Efficient-price screen *)

Section EfficientPrice.

Variables target_price eff : Q.
Hypothesis eff_above : -1 < eff.

Lemma divisor_pos : 0 < 1 + eff.
Proof using eff_above. lra. Qed.

Lemma calcEfficientPrice_value K :
  calcEfficientPrice K target_price eff
  = Ok ((K - target_price) / (1 + eff)).
Proof using eff_above.
  unfold calcEfficientPrice.
  destruct (Qeq_bool (1 + eff) 0) eqn:E; [|reflexivity].
  apply Qeq_bool_iff in E. pose proof divisor_pos. lra.
Qed.

Lemma eff_price_increasing K K' :
  K < K' ->
  (K - target_price) / (1 + eff) < (K' - target_price) / (1 + eff).
Proof using eff_above.
  intros HK. unfold Qdiv. apply Qmult_lt_compat_r.
  - apply Qinv_lt_0_compat, divisor_pos.
  - lra.
Qed.

Lemma eff_price_negative K :
  K < target_price -> (K - target_price) / (1 + eff) < 0.
Proof using eff_above.
  intros HK.
  setoid_replace 0 with ((target_price - target_price) / (1 + eff)).
  - now apply eff_price_increasing.
  - unfold Qdiv. ring.
Qed.

Lemma add_eff_price_rows opt :
  add_eff_price opt target_price eff
  = Ok (map (fun x => mk_option_row (fst x) (snd x)
                        ((fst x - target_price) / (1 + eff))) opt).
Proof using eff_above.
  unfold add_eff_price. induction opt as [|x xs IH]; [reflexivity|].
  cbn [mapM map]. rewrite calcEfficientPrice_value. cbn [bind].
  rewrite IH. reflexivity.
Qed.

End EfficientPrice.

(** ** C9 *)

(** C9: [calcEfficientPrice K target_price eff] is
    [(K - target_price) / (1 + eff)] (whenever the divisor is not zero);
    for [eff > -1] it is strictly increasing in the strike [K] and
    negative for [K < target_price], so the screen
    [lastPrice <= eff_price] keeps no option with a positive last price
    at a strike below the target price. *)
Theorem C9_efficient_price_screen (K K' target_price eff : Q)
    (opt : list (Q * Q)) :
  (~ 1 + eff == 0 ->
   calcEfficientPrice K target_price eff
   = Ok ((K - target_price) / (1 + eff)))
  /\ (-1 < eff ->
      (K < K' ->
       (K - target_price) / (1 + eff) < (K' - target_price) / (1 + eff))
      /\ (K < target_price -> (K - target_price) / (1 + eff) < 0)
      /\ exists kept,
           screen opt target_price eff = Ok kept
           /\ forall x, In x kept ->
                ~ (0 < lastPrice x /\ strike x < target_price)).
Proof.
  split.
  - intros Hne. unfold calcEfficientPrice.
    destruct (Qeq_bool (1 + eff) 0) eqn:E; [|reflexivity].
    apply Qeq_bool_iff in E. contradiction.
  - intros Heff. split; [|split].
    + now apply eff_price_increasing.
    + now apply eff_price_negative.
    + unfold screen. rewrite add_eff_price_rows by assumption. cbn [bind].
      eexists. split; [reflexivity|].
      intros x Hx [Hpos Hbelow].
      unfold filtered_opt in Hx. apply filter_In in Hx.
      destruct Hx as [Hin Hkeep]. apply Qle_bool_iff in Hkeep.
      apply in_map_iff in Hin. destruct Hin as [[k p] [Hx _]].
      subst x. cbn [strike lastPrice eff_price fst snd] in *.
      pose proof (eff_price_negative target_price eff Heff k Hbelow).
      lra.
Qed.

Lemma C9_efficient_price_screen_witness :
  calcEfficientPrice 100 85 (34 # 5) = Ok ((100 - 85) / (1 + (34 # 5)))
  /\ (80 - 85) / (1 + (34 # 5)) < 0
  /\ exists kept,
       screen [(80, 1 # 2); (100, 1)] 85 (34 # 5) = Ok kept
       /\ forall x, In x kept -> ~ (0 < lastPrice x /\ strike x < 85).
Proof.
  pose proof (C9_efficient_price_screen 80 100 85 (34 # 5)
                [(80, 1 # 2); (100, 1)]) as [_ H].
  pose proof (C9_efficient_price_screen 100 100 85 (34 # 5) []) as [Hv _].
  assert (Heff : -1 < 34 # 5) by reflexivity.
  assert (Hne : ~ 1 + (34 # 5) == 0) by discriminate.
  destruct (H Heff) as [_ [Hneg Hkept]].
  split; [exact (Hv Hne)|].
  split; [apply Hneg; reflexivity|exact Hkept].
Defined.

(** * Return categorizer *)

Lemma last_is_nth {A} (l : list A) (d : A) :
  last l d = nth (length l - 1) l d.
Proof.
  induction l as [|x [|y ys] IH]; try reflexivity.
  change (last (x :: y :: ys) d) with (last (y :: ys) d). rewrite IH.
  cbn [length]. rewrite !Nat.sub_succ, !Nat.sub_0_r. reflexivity.
Qed.

Lemma edge_lt_Fin x y : edge_lt (Fin x) (Fin y) <-> x < y.
Proof.
  unfold edge_lt, edge_ltb. destruct (Qlt_le_dec x y); split; intros H;
    try reflexivity; try assumption; try discriminate; lra.
Qed.

Lemma edge_le_Fin x y : edge_le (Fin x) (Fin y) <-> x <= y.
Proof.
  unfold edge_le, edge_ltb. destruct (Qlt_le_dec y x); split; intros H;
    try reflexivity; try assumption; try discriminate; lra.
Qed.

Lemma edge_lt_trans a b c : edge_lt a b -> edge_lt b c -> edge_lt a c.
Proof.
  destruct a as [|x|], b as [|y|], c as [|z|]; try (intros; reflexivity);
    try (intros H1 H2; discriminate H1 || discriminate H2).
  rewrite !edge_lt_Fin. lra.
Qed.

Lemma edge_le_lt_trans a b c : edge_le a b -> edge_lt b c -> edge_le a c.
Proof.
  destruct a as [|x|], b as [|y|], c as [|z|]; try (intros; reflexivity);
    try (intros H1 H2; discriminate H1 || discriminate H2).
  rewrite !edge_le_Fin, edge_lt_Fin. lra.
Qed.

Lemma edge_lt_not_le a b : edge_lt a b -> ~ edge_le b a.
Proof. unfold edge_lt, edge_le. congruence. Qed.

Lemma edge_lt_neq a b : edge_lt a b -> edge_eqb b a = false.
Proof.
  destruct a as [|x|], b as [|y|]; try reflexivity; try discriminate.
  rewrite edge_lt_Fin. intros H. cbn.
  destruct (Qeq_bool y x) eqn:E; [|reflexivity].
  apply Qeq_bool_iff in E. lra.
Qed.

Lemma strictly_increasing_strong bins :
  strictly_increasing bins -> StronglySorted edge_lt bins.
Proof.
  apply Sorted_StronglySorted. intros a b c. apply edge_lt_trans.
Qed.

(** Where [searchsorted] lands in an increasing array: every edge before
    it is below [x], no edge from it on is. *)
Lemma searchsorted_left_split bins x :
  StronglySorted edge_lt bins ->
  (searchsorted_left bins x <= length bins)%nat
  /\ (forall i, (i < searchsorted_left bins x)%nat ->
        edge_lt (nth i bins PosInf) x)
  /\ (forall i, (searchsorted_left bins x <= i < length bins)%nat ->
        edge_le x (nth i bins PosInf)).
Proof.
  induction 1 as [|e es Hs IH Hall]; cbn [searchsorted_left length].
  - repeat split; intros; lia.
  - destruct IH as [IHlen [IHlt IHle]].
    destruct (edge_ltb e x) eqn:E.
    + split; [lia|]. split.
      * intros [|i] Hi; cbn [nth]; [exact E|]. apply IHlt. lia.
      * intros [|i] Hi; [lia|]. cbn [nth]. apply IHle. lia.
    + split; [lia|]. split; [intros; lia|].
      intros [|i] Hi; cbn [nth]; [exact E|].
      apply edge_le_lt_trans with e; [exact E|].
      rewrite Forall_forall in Hall. apply Hall, nth_In.
      cbn [length] in Hi. lia.
Qed.

(** ** C5 *)

(** C5 (as the code has it): for a strictly increasing boundary sequence
    and a return [r] above the first edge and not above the last (every
    return, with the infinite outer edges), [pd.cut] assigns exactly one
    category [i], the one with [edge[i] < r <= edge[i+1]]: bins are
    left-open and right-closed, and a return equal to an interior
    boundary goes to the bin on its left. *)
Theorem C5_cut_right_closed (bins : list edge) (include_lowest : bool)
    (r : Q) :
  strictly_increasing bins ->
  edge_lt (hd PosInf bins) (Fin r) ->
  edge_le (Fin r) (last bins NegInf) ->
  exists i,
    cut1 bins include_lowest r = Some i
    /\ (S i < length bins)%nat
    /\ right_closed_bin bins r i
    /\ forall j, (S j < length bins)%nat -> right_closed_bin bins r j ->
         j = i.
Proof.
  intros Hinc Hfirst Hlast.
  apply strictly_increasing_strong in Hinc.
  destruct (searchsorted_left_split bins (Fin r) Hinc) as [Hk [Hlt Hle]].
  set (k := searchsorted_left bins (Fin r)) in *.
  assert (Hk1 : (1 <= k)%nat).
  { destruct bins as [|e es]; [discriminate Hfirst|].
    subst k. cbn [searchsorted_left hd] in *.
    unfold edge_lt in Hfirst. rewrite Hfirst. lia. }
  assert (Hk2 : (k < length bins)%nat).
  { destruct (Nat.eq_dec k (length bins)) as [E|E]; [|lia].
    exfalso. apply (edge_lt_not_le (last bins NegInf) (Fin r)); [|exact Hlast].
    destruct bins as [|e es]; [cbn in Hk1; lia|].
    rewrite last_is_nth, (nth_indep _ NegInf PosInf).
    - apply Hlt. cbn [length] in *. lia.
    - cbn [length]. lia. }
  exists (k - 1)%nat.
  assert (Hcut : cut1 bins include_lowest r = Some (k - 1)%nat).
  { unfold cut1. fold k.
    destruct bins as [|e es]; [cbn in Hk2; lia|].
    cbn [hd] in Hfirst. rewrite (edge_lt_neq _ _ Hfirst), andb_false_r.
    destruct (Nat.eqb_spec k (length (e :: es))); [lia|].
    destruct (Nat.eqb_spec k 0); [lia|]. reflexivity. }
  split; [exact Hcut|]. split; [lia|]. split.
  - split; [apply Hlt; lia|].
    replace (S (k - 1)) with k by lia. apply Hle. lia.
  - intros j Hj [Hjl Hjr].
    assert (j < k)%nat.
    { destruct (Nat.lt_ge_cases j k) as [?|Hge]; [assumption|].
      exfalso. apply (edge_lt_not_le _ _ Hjl). apply Hle. lia. }
    assert (k <= S j)%nat.
    { destruct (Nat.le_gt_cases k (S j)) as [?|Hgt]; [assumption|].
      exfalso. apply (edge_lt_not_le _ _ (Hlt (S j) Hgt)). exact Hjr. }
    lia.
Qed.

Lemma C5_cut_right_closed_witness :
  exists i,
    cut1 Sample.bins true (3 # 10) = Some i
    /\ (S i < length Sample.bins)%nat
    /\ right_closed_bin Sample.bins (3 # 10) i
    /\ forall j, (S j < length Sample.bins)%nat ->
         right_closed_bin Sample.bins (3 # 10) j -> j = i.
Proof.
  apply (C5_cut_right_closed Sample.bins true (3 # 10)).
  - unfold strictly_increasing, Sample.bins.
    repeat (constructor; try reflexivity).
  - reflexivity.
  - reflexivity.
Defined.

(** At the interior boundary 0 of the script's own bins the return 0 gets
    category 3 ("-15% to 0%"), the bin on its left, which is not a bin
    [[edge[i], edge[i+1])] containing it. *)
Lemma C5_counterexample :
  Spec.strictly_increasing Sample.bins
  /\ cut1 Sample.bins true 0 = Some 3%nat
  /\ ~ exists i, cut1 Sample.bins true 0 = Some i
                 /\ left_closed_bin Sample.bins 0 i.
Proof.
  split; [|split].
  - unfold strictly_increasing, Sample.bins.
    repeat (constructor; try reflexivity).
  - reflexivity.
  - intros [i [Hi [_ Hr]]]. vm_compute in Hi. injection Hi as <-.
    vm_compute in Hr. discriminate Hr.
Qed.

(** * Array indexing *)

Lemma getitem_valid {A} (a : list A) (i : Z) (d : A) :
  valid_index (length a) i ->
  getitem a i = Ok (nth (Z.to_nat (position (length a) i)) a d).
Proof.
  unfold valid_index, getitem. intros [H0 Hn].
  destruct (Z.leb_spec 0 (position (length a) i)); [|lia].
  destruct (Z.ltb_spec (position (length a) i) (Z.of_nat (length a)));
    [|lia].
  cbn [andb].
  rewrite (nth_error_nth' a d) by lia. reflexivity.
Qed.

Lemma getitem_Ok_inv {A} (a : list A) (i : Z) (x : A) :
  getitem a i = Ok x -> valid_index (length a) i.
Proof.
  unfold valid_index, getitem.
  destruct (Z.leb_spec 0 (position (length a) i));
    destruct (Z.ltb_spec (position (length a) i) (Z.of_nat (length a)));
    cbn [andb]; try discriminate.
  intros _. lia.
Qed.

Lemma getitem_Raise_inv {A} (a : list A) (i : Z) (e : exn) :
  getitem a i = Raise e -> e = IndexError /\ ~ valid_index (length a) i.
Proof.
  intros H. split.
  - unfold getitem in H.
    destruct ((0 <=? _) && _)%Z; [destruct nth_error|]; congruence.
  - intros Hv. destruct a as [|d a'].
    + unfold valid_index in Hv. cbn [length] in Hv. lia.
    + rewrite (getitem_valid (d :: a') i d Hv) in H. discriminate.
Qed.

Lemma mapM_map {A B} (f : A -> result B) (g : A -> B) (l : list A) :
  Forall (fun x => f x = Ok (g x)) l -> mapM f l = Ok (map g l).
Proof.
  induction 1 as [|x xs Hx _ IH]; [reflexivity|].
  cbn [mapM map]. rewrite Hx. cbn [bind]. rewrite IH. reflexivity.
Qed.

Lemma mapM_Ok_inv {A B} (f : A -> result B) (l : list A) (ys : list B) :
  mapM f l = Ok ys -> Forall2 (fun x y => f x = Ok y) l ys.
Proof.
  revert ys. induction l as [|x xs IH]; intros ys H; cbn [mapM] in H.
  - injection H as <-. constructor.
  - destruct (f x) as [y|e] eqn:Ex; [|discriminate H]. cbn [bind] in H.
    destruct (mapM f xs) as [ys'|e]; [|discriminate H]. cbn [bind] in H.
    injection H as <-. constructor; [exact Ex|]. now apply IH.
Qed.

Lemma mapM_Raise_inv {A B} (f : A -> result B) (l : list A) (e : exn) :
  mapM f l = Raise e -> exists x, In x l /\ f x = Raise e.
Proof.
  induction l as [|x xs IH]; intros H; cbn [mapM] in H; [discriminate H|].
  destruct (f x) as [y|e'] eqn:Ex; cbn [bind] in H.
  - destruct (mapM f xs) as [ys'|e'']; cbn [bind] in H; [discriminate H|].
    destruct (IH H) as [z [Hz Hfz]]. exists z. split; [now right|exact Hfz].
  - injection H as ->. exists x. split; [now left|exact Ex].
Qed.

(** Fancy indexing succeeds exactly on valid indices, and then reads the
    array at each of them. *)
Lemma take_valid {A} (a : list A) (idx : ndarray2 Z) (d : A) :
  Forall (Forall (valid_index (length a))) (rows idx) ->
  take a idx
  = Ok (amap (fun k => nth (Z.to_nat (position (length a) k)) a d) idx).
Proof.
  intros H. unfold take, amap.
  rewrite (mapM_map _ (map (fun k => nth (Z.to_nat (position (length a) k))
                                       a d))).
  - reflexivity.
  - eapply Forall_impl; [|exact H]. cbn beta. intros r Hr.
    apply mapM_map. eapply Forall_impl; [|exact Hr]. cbn beta.
    intros k Hk. now apply getitem_valid.
Qed.

Lemma take_Ok_inv {A} (a : list A) (idx : ndarray2 Z) (m : ndarray2 A) :
  take a idx = Ok m -> Forall (Forall (valid_index (length a))) (rows idx).
Proof.
  unfold take. destruct (mapM _ (rows idx)) as [rs|e] eqn:E; [|discriminate].
  intros _. apply mapM_Ok_inv in E. clear m.
  induction E as [|r r' rs0 rs' Hr _ IH]; constructor; [|exact IH].
  apply mapM_Ok_inv in Hr. clear IH.
  induction Hr as [|k x ks xs Hk _ IH]; constructor; [|exact IH].
  eapply getitem_Ok_inv, Hk.
Qed.

Lemma take_Raise_inv {A} (a : list A) (idx : ndarray2 Z) (e : exn) :
  take a idx = Raise e ->
  e = IndexError
  /\ ~ Forall (Forall (valid_index (length a))) (rows idx).
Proof.
  unfold take. destruct (mapM _ (rows idx)) as [rs|e'] eqn:E; [discriminate|].
  cbn [bind]. intros H. injection H as ->.
  apply mapM_Raise_inv in E. destruct E as [r [Hr E]].
  apply mapM_Raise_inv in E. destruct E as [k [Hk E]].
  apply getitem_Raise_inv in E. destruct E as [-> Hbad].
  split; [reflexivity|]. intros Hall.
  rewrite Forall_forall in Hall. specialize (Hall r Hr).
  rewrite Forall_forall in Hall. exact (Hbad (Hall k Hk)).
Qed.

(** * The simulator after the draw *)

Lemma zip_with_map {A B C D} (f : B -> C -> D) (g : A -> B) (h : A -> C)
    (l : list A) :
  zip_with f (map g l) (map h l) = map (fun x => f (g x) (h x)) l.
Proof.
  induction l as [|x xs IH]; [reflexivity|]. cbn [map zip_with].
  now rewrite IH.
Qed.

Lemma observed_In data k :
  valid_index (length data) k -> In (observed data k) data.
Proof. intros [H0 Hn]. apply nth_In. lia. Qed.

Lemma take_categories data sims :
  Forall (Forall (valid_index (length data))) (rows sims) ->
  take (map category data) sims
  = Ok (amap (fun k => category (observed data k)) sims).
Proof.
  intros Hsims.
  rewrite (take_valid (map category data) sims (category row0))
    by (rewrite length_map; exact Hsims).
  unfold amap. do 2 f_equal. apply map_ext. intros row. apply map_ext.
  intros k. rewrite length_map. apply map_nth.
Qed.

Lemma take_returns data sims :
  Forall (Forall (valid_index (length data))) (rows sims) ->
  take (map annual_returns data) sims
  = Ok (amap (fun k => annual_returns (observed data k)) sims).
Proof.
  intros Hsims.
  rewrite (take_valid (map annual_returns data) sims (annual_returns row0))
    by (rewrite length_map; exact Hsims).
  unfold amap. do 2 f_equal. apply map_ext. intros row. apply map_ext.
  intros k. rewrite length_map. apply map_nth.
Qed.

Lemma payable_rows payoffs data sims :
  payable payoffs data sims
  <-> Forall (Forall (valid_index (length payoffs)))
        (rows (amap (fun k => category (observed data k)) sims)).
Proof.
  unfold payable, amap. cbn [rows]. rewrite Forall_map.
  split; intros H; eapply Forall_impl; try exact H; cbn beta;
    intros row Hrow; now rewrite Forall_map in *.
Qed.

(** Closed form of the trajectories: when every drawn index is valid for
    the pool and the category of every drawn observation is valid for
    the payoff vector, row [i] of the result is the cumulative product
    of the period factors of the observations row [i] of [sims]
    selects. *)
Lemma trajectories_of_drawn data allocation payoffs sims :
  Forall (Forall (valid_index (length data))) (rows sims) ->
  payable payoffs data sims ->
  trajectories_of data allocation payoffs sims
  = Ok (mk_ndarray2 (ncols sims)
          (map (fun row =>
                  cumprod (map (fun k => period_factor allocation payoffs
                                           (observed data k)) row))
             (rows sims))).
Proof.
  intros Hsims Hpay. unfold trajectories_of.
  rewrite (take_categories data sims Hsims). cbn [bind].
  rewrite (take_returns data sims Hsims). cbn [bind].
  rewrite (take_valid payoffs _ 0) by (apply payable_rows; exact Hpay).
  cbn [bind]. unfold cumprod_axis1, aadd, amap. cbn [rows ncols].
  f_equal. f_equal. rewrite !map_map, zip_with_map, map_map.
  apply map_ext. intros row. f_equal.
  rewrite !map_map, zip_with_map. reflexivity.
Qed.

(** When some drawn observation has a category outside the payoff
    vector, the lookup [payoffs[ret_cats]] raises. *)
Lemma trajectories_of_unpayable data allocation payoffs sims :
  Forall (Forall (valid_index (length data))) (rows sims) ->
  ~ payable payoffs data sims ->
  trajectories_of data allocation payoffs sims = Raise IndexError.
Proof.
  intros Hsims Hpay. unfold trajectories_of.
  rewrite (take_categories data sims Hsims). cbn [bind].
  rewrite (take_returns data sims Hsims). cbn [bind].
  destruct (take payoffs _) as [pc|e] eqn:E.
  - apply take_Ok_inv, payable_rows in E. contradiction.
  - apply take_Raise_inv in E. destruct E as [-> _]. reflexivity.
Qed.

Lemma covers_payable payoffs data sims :
  Forall (Forall (valid_index (length data))) (rows sims) ->
  Forall (fun r => valid_index (length payoffs) (category r)) data ->
  payable payoffs data sims.
Proof.
  intros Hsims Hcov. unfold payable.
  eapply Forall_impl; [|exact Hsims]. cbn beta. intros row Hrow.
  eapply Forall_impl; [|exact Hrow]. cbn beta. intros k Hk.
  rewrite Forall_forall in Hcov. apply Hcov. now apply observed_In.
Qed.

Lemma trajectories_of_valid data allocation payoffs sims :
  Forall (Forall (valid_index (length data))) (rows sims) ->
  Forall (fun r => valid_index (length payoffs) (category r)) data ->
  trajectories_of data allocation payoffs sims
  = Ok (mk_ndarray2 (ncols sims)
          (map (fun row =>
                  cumprod (map (fun k => period_factor allocation payoffs
                                           (observed data k)) row))
             (rows sims))).
Proof.
  intros Hsims Hcov. apply trajectories_of_drawn; [exact Hsims|].
  now apply covers_payable.
Qed.

Lemma in_range_valid M sims :
  in_range M sims -> Forall (Forall (valid_index M)) (rows sims).
Proof.
  unfold in_range. intros H. eapply Forall_impl; [|exact H]. cbn beta.
  intros row Hrow. eapply Forall_impl; [|exact Hrow]. cbn beta.
  intros k Hk. unfold valid_index, position.
  destruct (Z.ltb_spec k 0); lia.
Qed.

Lemma covers_valid payoffs data :
  covers payoffs data ->
  Forall (fun r => valid_index (length payoffs) (category r)) data.
Proof.
  unfold covers. intros H. eapply Forall_impl; [|exact H]. cbn beta.
  intros r Hr. unfold valid_index, position.
  destruct (Z.ltb_spec (category r) 0); lia.
Qed.

Lemma period_factor_combined allocation payoffs r :
  (0 <= category r)%Z ->
  period_factor allocation payoffs r == combined allocation payoffs r.
Proof.
  intros H. unfold period_factor, combined, position.
  destruct (Z.ltb_spec (category r) 0); [lia|]. ring.
Qed.

(** * Cumulative products *)



Lemma nth_cumprod_from acc l t :
  (t < length l)%nat ->
  nth t (cumprod_from acc l) 0 == acc * prod_upto (S t) l.
Proof.
  revert acc t. induction l as [|x xs IH]; intros acc t Ht;
    cbn [length] in Ht; [lia|].
  cbn [cumprod_from]. destruct t as [|t].
  - cbn [nth prod_upto]. destruct xs; ring.
  - cbn [nth]. rewrite IH by lia.
    change (prod_upto (S (S t)) (x :: xs)) with (x * prod_upto (S t) xs).
    ring.
Qed.

Lemma nth_cumprod l t :
  (t < length l)%nat -> nth t (cumprod l) 0 == prod_upto (S t) l.
Proof.
  destruct l as [|x xs]; cbn [length]; intros Ht; [lia|].
  cbn [cumprod]. destruct t as [|t].
  - cbn [nth prod_upto]. destruct xs; ring.
  - cbn [nth]. rewrite nth_cumprod_from by lia.
    change (prod_upto (S (S t)) (x :: xs)) with (x * prod_upto (S t) xs).
    reflexivity.
Qed.

Lemma prod_upto_ext {A} (f g : A -> Q) (l : list A) k :
  Forall (fun x => f x == g x) l ->
  prod_upto k (map f l) == prod_upto k (map g l).
Proof.
  intros H. revert k. induction H as [|x xs Hx _ IH]; intros [|k];
    cbn [map prod_upto]; try reflexivity.
  now rewrite Hx, IH.
Qed.



Lemma cumprod_from_Qeq acc acc' l l' :
  acc == acc' -> Forall2 Qeq l l' ->
  Forall2 Qeq (cumprod_from acc l) (cumprod_from acc' l').
Proof.
  intros Hacc H. revert acc acc' Hacc.
  induction H as [|x y xs ys Hxy _ IH]; intros acc acc' Hacc;
    cbn [cumprod_from]; constructor.
  - now rewrite Hacc, Hxy.
  - apply IH. now rewrite Hacc, Hxy.
Qed.

Lemma cumprod_Qeq l l' :
  Forall2 Qeq l l' -> Forall2 Qeq (cumprod l) (cumprod l').
Proof.
  intros H. destruct H as [|x y xs ys Hxy Hrest]; cbn [cumprod];
    constructor; [exact Hxy|]. now apply cumprod_from_Qeq.
Qed.

(** The closed form is made of running products of combined factors. *)
Lemma closed_form_running_products allocation payoffs data sims :
  covers payoffs data ->
  Forall (Forall (valid_index (length data))) (rows sims) ->
  running_products allocation payoffs data sims
    (mk_ndarray2 (ncols sims)
       (map (fun row =>
               cumprod (map (fun k => period_factor allocation payoffs
                                        (observed data k)) row))
          (rows sims))).
Proof.
  intros Hcov Hsims. unfold running_products. cbn [ncols rows].
  split; [reflexivity|]. split; [apply length_map|].
  intros i t Hi Ht.
  rewrite (nth_indep _ [] (cumprod (map (fun k => period_factor allocation
                                           payoffs (observed data k)) [])))
    by (rewrite length_map; exact Hi).
  rewrite (map_nth (fun row => cumprod (map _ row))).
  rewrite nth_cumprod by (rewrite length_map; exact Ht).
  apply prod_upto_ext.
  assert (Hrow : Forall (valid_index (length data)) (nth i (rows sims) [])).
  { rewrite Forall_forall in Hsims. apply Hsims, nth_In, Hi. }
  eapply Forall_impl; [|exact Hrow]. cbn beta. intros k Hk.
  apply period_factor_combined.
  unfold covers in Hcov. rewrite Forall_forall in Hcov.
  apply (Hcov (observed data k)). now apply observed_In.
Qed.

(** ** C1 *)

(** C1: for every pool, allocation, payoff vector with an entry for
    every category of the pool, and every array [sims] of drawn pool
    positions, both simulators return the array whose entry at (path
    [i], period [t]) is the running product, through period [t], of the
    factors [(1 - a) * (1 + observed_return) + a * p[observed_category]]
    of the observations drawn for path [i]. *)
Theorem C1_trajectory_running_product {G : BitGenerator}
    (data : DataFrame) (allocation : Q) (payoffs : list Q)
    (years samples : Z) (s s' : rng_state) (sims : ndarray2 Z) :
  covers payoffs data ->
  in_range (length data) sims ->
  (choice (PopInt (Z.of_nat (length (index data)))) samples years s
   = (Ok sims, s') ->
   exists m, bitcoinSim data allocation payoffs years samples s = (Ok m, s')
             /\ running_products allocation payoffs data sims m)
  /\ (choice (PopArray (index data)) samples years s = (Ok sims, s') ->
      exists m, sp500Sim data allocation payoffs years samples s = (Ok m, s')
                /\ running_products allocation payoffs data sims m).
Proof.
  intros Hcov Hrange.
  pose proof (in_range_valid _ _ Hrange) as Hvalid.
  pose proof (trajectories_of_valid data allocation payoffs sims Hvalid
                (covers_valid _ _ Hcov)) as Hclosed.
  split; intros Hdraw; eexists; split.
  - unfold bitcoinSim, rbind. rewrite Hdraw. unfold lift.
    rewrite Hclosed. reflexivity.
  - now apply closed_form_running_products.
  - unfold sp500Sim, rbind. rewrite Hdraw. unfold lift.
    rewrite Hclosed. reflexivity.
  - now apply closed_form_running_products.
Qed.

Lemma C1_trajectory_running_product_witness :
  let sims := mk_ndarray2 3 [[0; 0; 1]; [1; 0; 1]]%Z in
  (exists m,
     bitcoinSim (G := lcg) Sample.df2 (1 # 10) [5; 0] 3 2 1234%Z
     = (Ok m, 2118068940%Z)
     /\ running_products (1 # 10) [5; 0] Sample.df2 sims m)
  /\ (exists m,
        sp500Sim (G := lcg) Sample.df2 (1 # 10) [5; 0] 3 2 1234%Z
        = (Ok m, 2118068940%Z)
        /\ running_products (1 # 10) [5; 0] Sample.df2 sims m).
Proof.
  intros sims.
  assert (Hcov : covers [5; 0] Sample.df2).
  { unfold covers, Sample.df2. repeat constructor; cbn; lia. }
  assert (Hrange : in_range (length Sample.df2) sims).
  { unfold in_range, sims. cbn. repeat constructor; lia. }
  destruct (C1_trajectory_running_product (G := lcg) Sample.df2 (1 # 10)
              [5; 0] 3 2 1234%Z 2118068940%Z sims Hcov Hrange) as [Hb Hs].
  split; [apply Hb|apply Hs]; reflexivity.
Defined.

(** * Drawing from the generator *)

Section Draws.

Context {G : BitGenerator}.
Hypothesis G_lawful : lawful G.
Variable M : Z.
Hypothesis M_pos : (0 < M)%Z.

Lemma draw_row_spec k s :
  length (fst (draw_row M k s)) = k
  /\ Forall (fun x => (0 <= x < M)%Z) (fst (draw_row M k s)).
Proof using G_lawful M_pos.
  revert s. induction k as [|k IH]; intros s; cbn [draw_row].
  - split; [reflexivity|constructor].
  - pose proof (G_lawful M s M_pos) as Hx.
    destruct (randint M s) as [x s1]. cbn [fst] in Hx.
    specialize (IH s1). destruct (draw_row M k s1) as [xs s2].
    cbn [fst length] in *. destruct IH as [IHl IHr].
    split; [now rewrite IHl|now constructor].
Qed.

Lemma draw_rows_spec r c s :
  length (fst (draw_rows M r c s)) = r
  /\ Forall (fun row => length row = c
                        /\ Forall (fun x => (0 <= x < M)%Z) row)
       (fst (draw_rows M r c s)).
Proof using G_lawful M_pos.
  revert s. induction r as [|r IH]; intros s; cbn [draw_rows].
  - split; [reflexivity|constructor].
  - pose proof (draw_row_spec c s) as Hrow.
    destruct (draw_row M c s) as [row s1]. cbn [fst] in Hrow.
    specialize (IH s1). destruct (draw_rows M r c s1) as [rest s2].
    cbn [fst length] in *. destruct IH as [IHl IHr].
    split; [now rewrite IHl|now constructor].
Qed.

End Draws.

(** Whatever [randint] returns for an array is in range and has the
    requested shape: drawn below a positive bound, or empty. *)
Lemma randint_array_spec {G : BitGenerator} (M d0 d1 : Z) s idx s' :
  lawful G ->
  (0 < M \/ d0 * d1 = 0)%Z ->
  randint_array M d0 d1 s = (Ok idx, s') ->
  (0 <= d0)%Z /\ (0 <= d1)%Z
  /\ ncols idx = Z.to_nat d1
  /\ length (rows idx) = Z.to_nat d0
  /\ Forall (fun row => length row = Z.to_nat d1
                        /\ Forall (fun x => (0 <= x < M)%Z) row) (rows idx).
Proof.
  intros HG HM. unfold randint_array.
  destruct (Z.ltb_spec d0 0) as [|Hd0]; [discriminate|].
  destruct (Z.ltb_spec d1 0) as [|Hd1]; [discriminate|]. cbn [orb].
  destruct (Z.eqb_spec (d0 * d1) 0) as [E|E].
  - intros Heq. injection Heq as <- <-. cbn [ncols rows].
    rewrite repeat_length. repeat (split; [assumption || reflexivity|]).
    apply Forall_forall. intros row Hrow.
    assert (Hd0' : (0 < d0)%Z).
    { destruct (Z.to_nat d0) eqn:E0; [destruct Hrow|lia]. }
    apply repeat_spec in Hrow. subst row. split; [|constructor].
    assert (d1 = 0)%Z as -> by nia. reflexivity.
  - destruct HM as [HM|HM]; [|contradiction].
    pose proof (draw_rows_spec HG M HM (Z.to_nat d0) (Z.to_nat d1) s) as Hd.
    destruct (draw_rows M (Z.to_nat d0) (Z.to_nat d1) s) as [m s2].
    cbn [fst] in Hd. intros Heq. injection Heq as <- <-. cbn [ncols rows].
    destruct Hd as [Hlen Hrows]. repeat (split; [assumption || reflexivity|]).
    exact Hrows.
Qed.

(** With a non-empty population and positive dimensions the draw
    succeeds. *)
Lemma randint_array_draws {G : BitGenerator} (M d0 d1 : Z) s :
  (0 < d0)%Z -> (0 < d1)%Z ->
  exists idx s', randint_array M d0 d1 s = (Ok idx, s').
Proof.
  intros H0 H1. unfold randint_array.
  destruct (Z.ltb_spec d0 0); [lia|]. destruct (Z.ltb_spec d1 0); [lia|].
  cbn [orb]. destruct (Z.eqb_spec (d0 * d1) 0); [nia|].
  destruct (draw_rows M (Z.to_nat d0) (Z.to_nat d1) s) as [m s2].
  eauto.
Qed.

Lemma shaped_in_range (M : nat) (c : nat) (idx : ndarray2 Z) :
  Forall (fun row => length row = c
                     /\ Forall (fun x => (0 <= x < Z.of_nat M)%Z) row)
    (rows idx) ->
  in_range M idx.
Proof.
  unfold in_range. intros H. eapply Forall_impl; [|exact H].
  cbn beta. intros row [_ Hrow]. exact Hrow.
Qed.

(** [np.random.choice] with an [int] population hands back the drawn
    positions. *)
Lemma choice_PopInt {G : BitGenerator} (M d0 d1 : Z) s :
  (0 < M)%Z ->
  choice (PopInt M) d0 d1 s = randint_array M d0 d1 s.
Proof.
  intros HM. unfold choice, pop_size.
  destruct (Z.leb_spec M 0); [lia|]. cbn [andb].
  unfold rbind, lift. destruct (randint_array M d0 d1 s) as [[idx|e] s'];
    reflexivity.
Qed.

Lemma index_length (data : DataFrame) : length (index data) = length data.
Proof. apply length_map. Qed.

(** ** C2 *)


Lemma lcg_lawful : lawful lcg.
Proof.
  intros M s HM. cbn [randint lcg fst]. apply Z.mod_pos_bound. exact HM.
Qed.


(** * Independence from the payoffs at allocation 0 *)

Lemma Forall2_map_same {A B} (R : B -> B -> Prop) (f g : A -> B)
    (l : list A) :
  Forall (fun x => R (f x) (g x)) l -> Forall2 R (map f l) (map g l).
Proof.
  induction 1 as [|x xs Hx _ IH]; cbn [map]; constructor; assumption.
Qed.

Lemma period_factor_zero_allocation p1 p2 r :
  period_factor 0 p1 r == period_factor 0 p2 r.
Proof. unfold period_factor. ring. Qed.

Lemma trajectories_of_zero_allocation data p1 p2 sims :
  covers p1 data -> covers p2 data ->
  outcome_eq (trajectories_of data 0 p1 sims)
    (trajectories_of data 0 p2 sims).
Proof.
  intros H1 H2.
  destruct (take (map category data) sims) as [rc|e] eqn:E.
  - apply take_Ok_inv in E. rewrite length_map in E.
    rewrite (trajectories_of_valid data 0 p1 sims E (covers_valid _ _ H1)).
    rewrite (trajectories_of_valid data 0 p2 sims E (covers_valid _ _ H2)).
    cbn [outcome_eq]. split; [reflexivity|]. cbn [rows].
    apply Forall2_map_same, Forall_forall. intros row _.
    apply cumprod_Qeq, Forall2_map_same, Forall_forall. intros k _.
    apply period_factor_zero_allocation.
  - unfold trajectories_of. rewrite E. cbn [bind outcome_eq]. reflexivity.
Qed.

(** ** C3 *)

(** C3: at allocation 0, for any two payoff vectors that each have an
    entry for every category of the pool, each simulator run from the
    same generator state (so making the same draws) on the same pool,
    years and samples gives the same outcome and leaves the generator in
    the same state: the output does not depend on the payoff vector. *)
Theorem C3_zero_allocation_ignores_payoffs {G : BitGenerator}
    (data : DataFrame) (p1 p2 : list Q) (years samples : Z)
    (s : rng_state) :
  covers p1 data ->
  covers p2 data ->
  (outcome_eq (fst (bitcoinSim data 0 p1 years samples s))
     (fst (bitcoinSim data 0 p2 years samples s))
   /\ snd (bitcoinSim data 0 p1 years samples s)
      = snd (bitcoinSim data 0 p2 years samples s))
  /\ (outcome_eq (fst (sp500Sim data 0 p1 years samples s))
        (fst (sp500Sim data 0 p2 years samples s))
      /\ snd (sp500Sim data 0 p1 years samples s)
         = snd (sp500Sim data 0 p2 years samples s)).
Proof.
  intros H1 H2. unfold bitcoinSim, sp500Sim, rbind, lift. split.
  - destruct (choice (PopInt _) samples years s) as [[sims|e] s'];
      cbn [fst snd outcome_eq]; split; try reflexivity.
    now apply trajectories_of_zero_allocation.
  - destruct (choice (PopArray _) samples years s) as [[sims|e] s'];
      cbn [fst snd outcome_eq]; split; try reflexivity.
    now apply trajectories_of_zero_allocation.
Qed.

Lemma C3_zero_allocation_ignores_payoffs_witness :
  (outcome_eq
     (fst (bitcoinSim (G := lcg) Sample.df2 0 [5; 0] 3 2 1234%Z))
     (fst (bitcoinSim (G := lcg) Sample.df2 0 [1 # 2; 7] 3 2 1234%Z))
   /\ snd (bitcoinSim (G := lcg) Sample.df2 0 [5; 0] 3 2 1234%Z)
      = snd (bitcoinSim (G := lcg) Sample.df2 0 [1 # 2; 7] 3 2 1234%Z))
  /\ (outcome_eq
        (fst (sp500Sim (G := lcg) Sample.df2 0 [5; 0] 3 2 1234%Z))
        (fst (sp500Sim (G := lcg) Sample.df2 0 [1 # 2; 7] 3 2 1234%Z))
      /\ snd (sp500Sim (G := lcg) Sample.df2 0 [5; 0] 3 2 1234%Z)
         = snd (sp500Sim (G := lcg) Sample.df2 0 [1 # 2; 7] 3 2 1234%Z)).
Proof.
  apply (C3_zero_allocation_ignores_payoffs (G := lcg) Sample.df2 [5; 0]
           [1 # 2; 7] 3 2 1234%Z).
  - unfold covers, Sample.df2. repeat constructor; cbn; lia.
  - unfold covers, Sample.df2. repeat constructor; cbn; lia.
Defined.

(** * The two simulators *)

Lemma getitem_default_index (n : nat) (k : Z) :
  (0 <= k < Z.of_nat n)%Z ->
  nth (Z.to_nat (position (length (map Z.of_nat (seq 0 n))) k))
    (map Z.of_nat (seq 0 n)) (Z.of_nat 0) = k.
Proof.
  intros Hk. rewrite length_map, length_seq. unfold position.
  destruct (Z.ltb_spec k 0); [lia|].
  rewrite map_nth, seq_nth by lia. lia.
Qed.

(** Drawing elements of the default index is drawing positions. *)
Lemma choice_default_index {G : BitGenerator} (data : DataFrame)
    (d0 d1 : Z) (s : rng_state) :
  lawful G ->
  default_index data ->
  choice (PopArray (index data)) d0 d1 s
  = choice (PopInt (Z.of_nat (length (index data)))) d0 d1 s.
Proof.
  intros HG Hidx. unfold choice. cbn [pop_size].
  set (M := Z.of_nat (length (index data))).
  destruct ((M <=? 0)%Z && negb (d0 * d1 =? 0)%Z) eqn:Econd; [reflexivity|].
  unfold rbind, lift.
  destruct (randint_array M d0 d1 s) as [[idx|e] s'] eqn:Ed; [|reflexivity].
  f_equal.
  assert (HM : (0 < M \/ d0 * d1 = 0)%Z).
  { destruct (Z.leb_spec M 0); [|lia].
    destruct (Z.eqb_spec (d0 * d1) 0); [lia|discriminate Econd]. }
  destruct (randint_array_spec _ _ _ _ _ _ HG HM Ed)
    as [_ [_ [_ [_ Hshape]]]].
  pose proof (shaped_in_range _ _ _ Hshape) as Hrange.
  rewrite (take_valid (index data) idx (Z.of_nat 0))
    by (apply in_range_valid; exact Hrange).
  f_equal. unfold amap. destruct idx as [c rs]. cbn [ncols rows] in *.
  f_equal. unfold in_range in Hrange. cbn [rows] in Hrange.
  rewrite <- (map_id rs) at 2. apply map_ext_in. intros row Hrow.
  rewrite <- (map_id row) at 2. apply map_ext_in. intros k Hk.
  rewrite Forall_forall in Hrange. specialize (Hrange row Hrow).
  rewrite Forall_forall in Hrange. specialize (Hrange k Hk).
  rewrite Hidx. rewrite index_length in Hrange.
  now apply getitem_default_index.
Qed.

(** ** C10 *)

(** C10: on a pool whose index is the default range 0..M-1, [sp500Sim]
    (which draws index values and uses them as positions) and
    [bitcoinSim] (which draws positions below M) return the same
    trajectories, and leave the generator in the same state, for the
    same allocation, payoffs, sizes and generator state. *)
Theorem C10_simulators_agree {G : BitGenerator} (data : DataFrame)
    (allocation : Q) (payoffs : list Q) (years samples : Z)
    (s : rng_state) :
  lawful G ->
  default_index data ->
  sp500Sim data allocation payoffs years samples s
  = bitcoinSim data allocation payoffs years samples s.
Proof.
  intros HG Hidx. unfold sp500Sim, bitcoinSim, rbind.
  now rewrite choice_default_index.
Qed.

(** The default index is needed: on the same two observations labelled
    1 and 0, [sp500Sim] reads the rows the labels name, not the rows
    drawn. *)
Example sp500Sim_relabelled_differs :
  let data := [mk_row 1 (1 # 5) 1; mk_row 0 (-1 # 5) 0] in
  fst (sp500Sim (G := lcg) data 0 [5; 0] 3 1 1234%Z)
  = Ok (mk_ndarray2 3 [[4 # 5; 16 # 25; 96 # 125]])
  /\ fst (bitcoinSim (G := lcg) data 0 [5; 0] 3 1 1234%Z)
     = Ok (mk_ndarray2 3 [[6 # 5; 36 # 25; 144 # 125]]).
Proof. split; reflexivity. Qed.

Lemma C10_simulators_agree_witness :
  sp500Sim (G := lcg) Sample.df2 (1 # 10) [5; 0] 3 2 1234%Z
  = bitcoinSim (G := lcg) Sample.df2 (1 # 10) [5; 0] 3 2 1234%Z.
Proof.
  apply (C10_simulators_agree (G := lcg) Sample.df2 (1 # 10) [5; 0] 3 2
           1234%Z).
  - exact lcg_lawful.
  - reflexivity.
Defined.

(** * Quantile path *)

Section Argmin.

Variable d : Q.

Lemma argmin_from_spec best bi i l :
  (argmin_from best bi i l = bi /\ Forall (fun x => best <= x) l)
  \/ exists j,
       argmin_from best bi i l = (i + j)%nat
       /\ (j < length l)%nat
       /\ nth j l d < best
       /\ (forall j', (j' < j)%nat -> nth j l d < nth j' l d)
       /\ (forall j', (j' < length l)%nat -> nth j l d <= nth j' l d).
Proof.
  revert best bi i. induction l as [|x xs IH]; intros best bi i.
  - left. split; [reflexivity|constructor].
  - cbn [argmin_from]. destruct (Qlt_le_dec x best) as [Hlt|Hge].
    + right. destruct (IH x i (S i)) as [[Hr Hall]|[j [Hr [Hj [Hb [He Hm]]]]]].
      * exists 0%nat. rewrite Hr. cbn [nth length].
        repeat split; try lia; try assumption.
        intros [|j'] Hj'; cbn [nth]; [lra|].
        rewrite Forall_forall in Hall. apply Hall, nth_In. lia.
      * exists (S j). rewrite Hr. cbn [nth length].
        repeat split; try lia; try lra.
        -- intros [|j'] Hj'; cbn [nth]; [lra|]. apply He. lia.
        -- intros [|j'] Hj'; cbn [nth]; [lra|]. apply Hm. lia.
    + destruct (IH best bi (S i))
        as [[Hr Hall]|[j [Hr [Hj [Hb [He Hm]]]]]].
      * left. split; [exact Hr|now constructor].
      * right. exists (S j). rewrite Hr. cbn [nth length].
        repeat split; try lia; try lra.
        -- intros [|j'] Hj'; cbn [nth]; [lra|]. apply He. lia.
        -- intros [|j'] Hj'; cbn [nth]; [lra|]. apply Hm. lia.
Qed.

(** [argmin] returns the first position of the minimum. *)
Lemma argmin_spec l :
  l <> [] ->
  exists i,
    argmin l = Ok i
    /\ (i < length l)%nat
    /\ (forall j, (j < length l)%nat -> nth i l d <= nth j l d)
    /\ (forall j, (j < i)%nat -> nth i l d < nth j l d).
Proof.
  destruct l as [|x xs]; [contradiction|]. intros _. cbn [argmin].
  destruct (argmin_from_spec x 0 1 xs)
    as [[Hr Hall]|[j [Hr [Hj [Hb [He Hm]]]]]]; rewrite Hr.
  - exists 0%nat. cbn [length nth]. repeat split; try lia.
    intros [|j] Hj; cbn [nth]; [lra|].
    rewrite Forall_forall in Hall. apply Hall, nth_In. lia.
  - exists (S j). cbn [length nth Nat.add]. repeat split; try lia.
    + intros [|j'] Hj'; cbn [nth]; [lra|]. apply Hm. lia.
    + intros [|j'] Hj'; cbn [nth]; [lra|]. apply He. lia.
Qed.

End Argmin.

Lemma getitem_last (r : list Q) :
  r <> [] -> getitem r (-1)%Z = Ok (terminal r).
Proof.
  intros Hr. unfold terminal. rewrite last_is_nth.
  rewrite (getitem_valid r (-1)%Z 0).
  - unfold position. cbn. do 2 f_equal. lia.
  - unfold valid_index, position. cbn.
    destruct r; [contradiction|cbn [length]; lia].
Qed.

Lemma last_column_rectangular (m : ndarray2 Q) :
  rectangular m -> (0 < ncols m)%nat ->
  last_column m = Ok (map terminal (rows m)).
Proof.
  intros Hrect Hc. unfold last_column.
  destruct (ncols m) as [|c] eqn:Ec; [lia|].
  apply mapM_map. eapply Forall_impl; [|exact Hrect]. cbn beta.
  intros r Hr. apply getitem_last. rewrite Ec in Hr.
  destruct r; [discriminate Hr|discriminate].
Qed.

Lemma quantile_succeeds (a : list Q) (q : Q) :
  a <> [] -> 0 <= q <= 1 -> exists v, Np.quantile a q = Ok v.
Proof.
  intros Ha [H0 H1]. unfold Np.quantile.
  destruct (Qlt_le_dec q 0); [lra|]. destruct (Qlt_le_dec 1 q); [lra|].
  destruct a; [contradiction|]. eauto.
Qed.

Lemma getitem_nat {A} (l : list A) (i : nat) (d : A) :
  (i < length l)%nat -> getitem l (Z.of_nat i) = Ok (nth i l d).
Proof.
  intros Hi. rewrite (getitem_valid l (Z.of_nat i) d).
  - unfold position. destruct (Z.ltb_spec (Z.of_nat i) 0); [lia|].
    now rewrite Nat2Z.id.
  - unfold valid_index, position.
    destruct (Z.ltb_spec (Z.of_nat i) 0); lia.
Qed.

(** What [getQuantilePath] returns on a non-degenerate array. *)
Lemma getQuantilePath_first_closest (m : ndarray2 Q) (q : Q) :
  rectangular m ->
  (0 < nrows m)%nat ->
  (0 < ncols m)%nat ->
  0 <= q <= 1 ->
  exists quant i path,
    getQuantilePath m q = Ok (quant, path)
    /\ Np.quantile (map terminal (rows m)) q = Ok quant
    /\ nth_error (rows m) i = Some path
    /\ (forall j row, nth_error (rows m) j = Some row ->
          Qabs (quant - terminal path) <= Qabs (quant - terminal row))
    /\ (forall j row, (j < i)%nat -> nth_error (rows m) j = Some row ->
          Qabs (quant - terminal path) < Qabs (quant - terminal row)).
Proof.
  intros Hrect Hr Hc Hq. unfold nrows in Hr.
  assert (Hne : map terminal (rows m) <> []).
  { destruct (rows m); [cbn in Hr; lia|discriminate]. }
  destruct (quantile_succeeds _ q Hne Hq) as [quant Hquant].
  set (dist := fun v => Qabs (quant - v)).
  assert (Hne' : map dist (map terminal (rows m)) <> []).
  { destruct (rows m); [cbn in Hr; lia|discriminate]. }
  destruct (argmin_spec (dist (terminal [])) _ Hne')
    as [i [Harg [Hi [Hmin Hfirst]]]].
  rewrite !length_map in Hi.
  exists quant, i, (nth i (rows m) []).
  split.
  { unfold getQuantilePath.
    rewrite (last_column_rectangular m Hrect Hc). cbn [bind].
    rewrite Hquant. cbn [bind]. fold dist. rewrite Harg. cbn [bind].
    rewrite (getitem_nat (rows m) i []) by exact Hi. reflexivity. }
  split; [exact Hquant|].
  split; [now apply nth_error_nth'|].
  assert (Hnth : forall j,
             nth j (map dist (map terminal (rows m))) (dist (terminal []))
             = dist (terminal (nth j (rows m) []))).
  { intros j. rewrite map_map.
    exact (map_nth (fun r => dist (terminal r)) (rows m) [] j). }
  split.
  - intros j row Hj.
    assert (Hjlt : (j < length (rows m))%nat).
    { apply nth_error_Some. congruence. }
    specialize (Hmin j). rewrite !length_map, !Hnth in Hmin.
    rewrite (nth_error_nth _ _ [] Hj) in Hmin. now apply Hmin.
  - intros j row Hji Hj.
    specialize (Hfirst j Hji). rewrite !Hnth in Hfirst.
    now rewrite (nth_error_nth _ _ [] Hj) in Hfirst.
Qed.

(** ** C4 *)



(** * What [np.quantile] computes *)

Lemma insert_sorted_perm x l : Permutation (x :: l) (insert_sorted x l).
Proof.
  induction l as [|y ys IH]; cbn [insert_sorted]; [reflexivity|].
  destruct (Qlt_le_dec y x); [|reflexivity].
  rewrite perm_swap. now constructor.
Qed.

Lemma sort_perm l : Permutation l (sort l).
Proof.
  induction l as [|x xs IH]; cbn [sort]; [reflexivity|].
  rewrite <- insert_sorted_perm. now constructor.
Qed.

Lemma insert_sorted_sorted x l :
  StronglySorted Qle l -> StronglySorted Qle (insert_sorted x l).
Proof.
  induction 1 as [|y ys Hs IH Hall]; cbn [insert_sorted].
  - repeat constructor.
  - destruct (Qlt_le_dec y x) as [Hlt|Hge].
    + constructor; [exact IH|].
      apply (Permutation_Forall (insert_sorted_perm x ys)).
      constructor; [lra|exact Hall].
    + constructor; [now constructor|]. constructor; [exact Hge|].
      eapply Forall_impl; [|exact Hall]. cbn beta. intros z Hz. lra.
Qed.

Lemma sort_sorted l : StronglySorted Qle (sort l).
Proof.
  induction l as [|x xs IH]; cbn [sort]; [constructor|].
  now apply insert_sorted_sorted.
Qed.

Lemma sorted_nth_le l i j d :
  StronglySorted Qle l -> (i <= j < length l)%nat ->
  nth i l d <= nth j l d.
Proof.
  intros Hs. revert i j. induction Hs as [|x xs Hs IH Hall]; intros i j Hij;
    cbn [length] in Hij; [lia|].
  destruct i as [|i], j as [|j]; cbn [nth]; try lia; try lra.
  - rewrite Forall_forall in Hall. apply Hall, nth_In. lia.
  - apply IH. lia.
Qed.

Lemma lerp_between a b t :
  a <= b -> 0 <= t <= 1 -> a <= lerp a b t <= b.
Proof.
  intros Hab Ht. unfold lerp. destruct (Qlt_le_dec t (1 # 2)); nra.
Qed.

Lemma lerp_zero a b t : t == 0 -> lerp a b t == a.
Proof.
  intros Ht. unfold lerp. destruct (Qlt_le_dec t (1 # 2)); [|lra].
  rewrite Ht. ring.
Qed.

(** The quantile is interpolated between two neighbouring order
    statistics of the sample, at the fractional part of [q * (n - 1)]. *)
Lemma quantile_interpolates (a : list Q) (q : Q) :
  a <> [] -> 0 <= q <= 1 ->
  exists (j : nat) (g lo hi : Q),
    Np.quantile a q = Ok (lerp lo hi g)
    /\ nth_error (sort a) j = Some lo
    /\ nth_error (sort a) (Nat.min (S j) (length a - 1)) = Some hi
    /\ inject_Z (Z.of_nat j) + g == q * inject_Z (Z.of_nat (length a) - 1)
    /\ 0 <= g < 1
    /\ lo <= hi.
Proof.
  intros Ha [H0 H1]. unfold Np.quantile.
  destruct (Qlt_le_dec q 0); [lra|]. destruct (Qlt_le_dec 1 q); [lra|].
  destruct a as [|x0 a']; [contradiction|].
  set (a := x0 :: a') in *. set (n := length a).
  set (h := q * inject_Z (Z.of_nat n - 1)).
  assert (Hn : (1 <= n)%nat) by (subst n a; cbn [length]; lia).
  assert (Hh0 : 0 <= h).
  { subst h. apply Qmult_le_0_compat; [exact H0|].
    change 0 with (inject_Z 0). rewrite <- Zle_Qle. lia. }
  assert (Hh1 : h <= inject_Z (Z.of_nat n - 1)).
  { subst h. rewrite <- (Qmult_1_l (inject_Z (Z.of_nat n - 1))) at 2.
    apply Qmult_le_compat_r; [exact H1|].
    change 0 with (inject_Z 0). rewrite <- Zle_Qle. lia. }
  assert (Hf0 : (0 <= Qfloor h)%Z).
  { change 0%Z with (Qfloor 0). now apply Qfloor_resp_le. }
  assert (Hf1 : (Qfloor h <= Z.of_nat n - 1)%Z).
  { rewrite <- (Qfloor_Z (Z.of_nat n - 1)). now apply Qfloor_resp_le. }
  pose proof (Qfloor_le h) as Hfl. pose proof (Qlt_floor h) as Hfu.
  assert (Hlen : length (sort a) = n).
  { symmetry. apply Permutation_length, sort_perm. }
  set (j := Z.to_nat (Qfloor h)).
  assert (Hj : (j < n)%nat) by (subst j; lia).
  exists j, (h - inject_Z (Qfloor h)), (nth j (sort a) x0),
    (nth (Nat.min (S j) (n - 1)) (sort a) x0).
  split; [reflexivity|].
  split; [apply nth_error_nth'; lia|].
  split; [apply nth_error_nth'; lia|].
  split.
  { subst j. rewrite Z2Nat.id by exact Hf0. ring. }
  split.
  { rewrite inject_Z_plus in Hfu. change (inject_Z 1) with 1 in Hfu. lra. }
  apply sorted_nth_le; [apply sort_sorted|]. lia.
Qed.

(** The quantile lies between two values of the sample; at [q = 0] it is
    the minimum and at [q = 1] the maximum. *)
Lemma quantile_between (a : list Q) (q v : Q) :
  0 <= q <= 1 -> Np.quantile a q = Ok v ->
  exists lo hi, In lo a /\ In hi a /\ lo <= v <= hi.
Proof.
  intros Hq Hv.
  assert (Ha : a <> []).
  { intros ->. unfold Np.quantile in Hv.
    destruct (Qlt_le_dec q 0); [discriminate|].
    destruct (Qlt_le_dec 1 q); discriminate. }
  destruct (quantile_interpolates a q Ha Hq)
    as [j [g [lo [hi [Hv' [Hlo [Hhi [_ [Hg Hle]]]]]]]]].
  rewrite Hv in Hv'. injection Hv' as ->.
  exists lo, hi. split; [|split].
  - apply (Permutation_in _ (Permutation_sym (sort_perm a))).
    eapply nth_error_In, Hlo.
  - apply (Permutation_in _ (Permutation_sym (sort_perm a))).
    eapply nth_error_In, Hhi.
  - apply lerp_between; [exact Hle|lra].
Qed.

Lemma inject_Z_sub x y : inject_Z (x - y) == inject_Z x - inject_Z y.
Proof.
  unfold Z.sub, Qminus. now rewrite inject_Z_plus, inject_Z_opp.
Qed.

Lemma quantile_zero_is_min (a : list Q) :
  a <> [] ->
  exists v x,
    Np.quantile a 0 = Ok v /\ In x a /\ v == x
    /\ forall y, In y a -> v <= y.
Proof.
  intros Ha.
  assert (Hq : 0 <= 0 <= 1) by lra.
  destruct (quantile_interpolates a 0 Ha Hq)
    as [j [g [lo [hi [Hv [Hlo [_ [Hjg [Hg _]]]]]]]]].
  assert (Hj0 : 0 <= inject_Z (Z.of_nat j)).
  { change 0 with (inject_Z 0). rewrite <- Zle_Qle. lia. }
  assert (Hg0 : g == 0) by lra.
  assert (Hj : j = 0%nat).
  { assert (H : inject_Z (Z.of_nat j) <= inject_Z 0)
      by (change (inject_Z 0) with 0; lra).
    rewrite <- Zle_Qle in H. lia. }
  subst j. exists (lerp lo hi g), lo.
  split; [exact Hv|].
  split; [apply (Permutation_in _ (Permutation_sym (sort_perm a)));
          eapply nth_error_In, Hlo|].
  split; [now apply lerp_zero|].
  intros y Hy. rewrite (lerp_zero lo hi g Hg0).
  apply (Permutation_in _ (sort_perm a)) in Hy.
  apply In_nth_error in Hy. destruct Hy as [k Hk].
  rewrite <- (nth_error_nth _ _ 0 Hlo), <- (nth_error_nth _ _ 0 Hk).
  apply sorted_nth_le; [apply sort_sorted|].
  split; [lia|]. apply nth_error_Some. congruence.
Qed.

Lemma quantile_one_is_max (a : list Q) :
  a <> [] ->
  exists v x,
    Np.quantile a 1 = Ok v /\ In x a /\ v == x
    /\ forall y, In y a -> y <= v.
Proof.
  intros Ha.
  assert (Hq : 0 <= 1 <= 1) by lra.
  destruct (quantile_interpolates a 1 Ha Hq)
    as [j [g [lo [hi [Hv [Hlo [_ [Hjg [Hg _]]]]]]]]].
  assert (Hlen : length (sort a) = length a).
  { symmetry. apply Permutation_length, sort_perm. }
  assert (Hjn : (j < length a)%nat).
  { rewrite <- Hlen. apply nth_error_Some. congruence. }
  assert (Hj : j = (length a - 1)%nat).
  { assert (H : inject_Z (Z.of_nat (length a) - 1 - 1)
                < inject_Z (Z.of_nat j)).
    { rewrite inject_Z_sub in Hjg. rewrite !inject_Z_sub.
      change (inject_Z 1) with 1 in *. lra. }
    rewrite <- Zlt_Qlt in H. lia. }
  assert (Hg0 : g == 0).
  { rewrite Hj in Hjg. rewrite Nat2Z.inj_sub in Hjg by lia.
    change (Z.of_nat 1) with 1%Z in Hjg. lra. }
  exists (lerp lo hi g), lo.
  split; [exact Hv|].
  split; [apply (Permutation_in _ (Permutation_sym (sort_perm a)));
          eapply nth_error_In, Hlo|].
  split; [now apply lerp_zero|].
  intros y Hy. rewrite (lerp_zero lo hi g Hg0).
  apply (Permutation_in _ (sort_perm a)) in Hy.
  apply In_nth_error in Hy. destruct Hy as [k Hk].
  assert (Hkn : (k < length (sort a))%nat).
  { apply nth_error_Some. congruence. }
  rewrite <- (nth_error_nth _ _ 0 Hlo), <- (nth_error_nth _ _ 0 Hk).
  apply sorted_nth_le; [apply sort_sorted|]. lia.
Qed.

(** * Degenerate trajectory arrays *)

Lemma getQuantilePath_no_period (m : ndarray2 Q) (q : Q) :
  ncols m = 0%nat -> getQuantilePath m q = Raise IndexError.
Proof.
  intros Hc. unfold getQuantilePath, last_column. rewrite Hc. reflexivity.
Qed.

Lemma getQuantilePath_no_path (m : ndarray2 Q) (q : Q) :
  nrows m = 0%nat -> 0 <= q <= 1 ->
  getQuantilePath m q = Raise IndexError.
Proof.
  intros Hr [H0 H1]. unfold nrows in Hr. apply length_zero_iff_nil in Hr.
  unfold getQuantilePath, last_column. rewrite Hr.
  destruct (ncols m); [reflexivity|]. cbn [mapM bind].
  unfold Np.quantile.
  destruct (Qlt_le_dec q 0); [lra|]. destruct (Qlt_le_dec 1 q); [lra|].
  reflexivity.
Qed.

(** ** C8 *)

(** C8 (as the code has it): for [q] in [0, 1], on an array with zero
    paths or zero periods [getQuantilePath] fails with the [IndexError]
    NumPy raises (the code has no error of its own for this case); on an
    array with at least one path and one period it succeeds. *)
Theorem C8_degenerate_trajectory (m : ndarray2 Q) (q : Q) :
  0 <= q <= 1 ->
  (nrows m = 0%nat \/ ncols m = 0%nat ->
   getQuantilePath m q = Raise IndexError)
  /\ (rectangular m -> (0 < nrows m)%nat -> (0 < ncols m)%nat ->
      succeeds (getQuantilePath m q)).
Proof.
  intros Hq. split.
  - intros [Hr|Hc].
    + now apply getQuantilePath_no_path.
    + now apply getQuantilePath_no_period.
  - intros Hrect Hr Hc.
    destruct (getQuantilePath_first_closest m q Hrect Hr Hc Hq)
      as [quant [i [path [H _]]]].
    exists (quant, path). exact H.
Qed.

Lemma C8_degenerate_trajectory_witness :
  getQuantilePath (mk_ndarray2 3 []) (1 # 2) = Raise IndexError
  /\ getQuantilePath (mk_ndarray2 0 [[]; []]) (1 # 2) = Raise IndexError
  /\ succeeds (getQuantilePath (mk_ndarray2 2 [[1; 3]; [1; 5]]) (1 # 2)).
Proof.
  assert (Hq : 0 <= 1 # 2 <= 1) by (split; discriminate).
  split; [|split].
  - apply (C8_degenerate_trajectory (mk_ndarray2 3 []) (1 # 2) Hq).
    left. reflexivity.
  - apply (C8_degenerate_trajectory (mk_ndarray2 0 [[]; []]) (1 # 2) Hq).
    right. reflexivity.
  - apply (C8_degenerate_trajectory (mk_ndarray2 2 [[1; 3]; [1; 5]])
             (1 # 2) Hq).
    + unfold rectangular. cbn. repeat constructor.
    + unfold nrows. cbn. lia.
    + cbn. lia.
Defined.

(** On an array of shape (0, 3) the extractor raises [IndexError], not an
    error named [EmptyTrajectory]. *)
Lemma C8_counterexample :
  nrows (mk_ndarray2 3 ([] : list (list Q))) = 0%nat
  /\ getQuantilePath (mk_ndarray2 3 []) (1 # 2) = Raise IndexError
  /\ getQuantilePath (mk_ndarray2 3 []) (1 # 2) <> Raise EmptyTrajectory.
Proof.
  split; [reflexivity|]. split; [reflexivity|]. discriminate.
Qed.

(** * The generator is global *)

(** ** C6 *)



(** * No validation at entry *)




Lemma choice_PopInt_any {G : BitGenerator} (M d0 d1 : Z) s :
  choice (PopInt M) d0 d1 s
  = if ((M <=? 0) && negb (d0 * d1 =? 0))%Z then (Raise ValueError, s)
    else randint_array M d0 d1 s.
Proof.
  unfold choice, pop_size. destruct ((M <=? 0) && _)%Z; [reflexivity|].
  unfold rbind, lift. destruct (randint_array M d0 d1 s) as [[idx|e] s'];
    reflexivity.
Qed.


(** ** C7 *)




(** * Further properties of the quantile path *)

Lemma lerp_linear a b t : lerp a b t == a + (b - a) * t.
Proof. unfold lerp. destruct (Qlt_le_dec t (1 # 2)); ring. Qed.

Lemma nat_index_le (j j' : nat) (g g' : Q) :
  0 <= g -> g' < 1 ->
  inject_Z (Z.of_nat j) + g <= inject_Z (Z.of_nat j') + g' ->
  (j <= j')%nat.
Proof.
  intros Hg Hg' H.
  destruct (Nat.le_gt_cases j j') as [Hle|Hgt]; [exact Hle|exfalso].
  assert (Hz : (Z.of_nat j' + 1 <= Z.of_nat j)%Z) by lia.
  rewrite Zle_Qle, inject_Z_plus in Hz. change (inject_Z 1) with 1 in Hz.
  lra.
Qed.

(** [np.quantile] does not decrease when [q] grows. *)
Lemma quantile_monotone (a : list Q) (q q' v v' : Q) :
  0 <= q -> q <= q' -> q' <= 1 ->
  Np.quantile a q = Ok v -> Np.quantile a q' = Ok v' -> v <= v'.
Proof.
  intros H0 Hqq H1 Hv Hv'.
  assert (Ha : a <> []).
  { intros ->. unfold Np.quantile in Hv.
    destruct (Qlt_le_dec q 0); [discriminate|].
    destruct (Qlt_le_dec 1 q); discriminate. }
  destruct (quantile_interpolates a q Ha) as
    [j [g [lo [hi [E [Hlo [Hhi [Hjg [Hg Hle]]]]]]]]]; [lra|].
  destruct (quantile_interpolates a q' Ha) as
    [j' [g' [lo' [hi' [E' [Hlo' [Hhi' [Hjg' [Hg' Hle']]]]]]]]]; [lra|].
  rewrite Hv in E. injection E as ->. rewrite Hv' in E'. injection E' as ->.
  assert (Hn : 0 <= inject_Z (Z.of_nat (length a) - 1)).
  { change 0 with (inject_Z 0). rewrite <- Zle_Qle.
    destruct a; [contradiction|cbn [length]; lia]. }
  assert (Hsum : inject_Z (Z.of_nat j) + g <= inject_Z (Z.of_nat j') + g').
  { rewrite Hjg, Hjg'. apply Qmult_le_compat_r; assumption. }
  assert (Hjj : (j <= j')%nat) by (apply (nat_index_le j j' g g'); lra).
  assert (Hlen : length (sort a) = length a).
  { symmetry. apply Permutation_length, sort_perm. }
  assert (Hj'n : (j' < length a)%nat).
  { rewrite <- Hlen. apply nth_error_Some. congruence. }
  destruct (Nat.eq_dec j j') as [->|Hne].
  - assert (lo' = lo) by congruence. assert (hi' = hi) by congruence.
    subst lo' hi'. rewrite !lerp_linear. nra.
  - pose proof (lerp_between lo hi g Hle) as Hb.
    pose proof (lerp_between lo' hi' g' Hle') as Hb'.
    assert (Hmid : hi <= lo').
    { rewrite <- (nth_error_nth _ _ 0 Hhi), <- (nth_error_nth _ _ 0 Hlo').
      apply sorted_nth_le; [apply sort_sorted|]. lia. }
    lra.
Qed.

Lemma Forall2_In_right {A B} (R : A -> B -> Prop) l l' y :
  Forall2 R l l' -> In y l' -> exists x, In x l /\ R x y.
Proof.
  induction 1 as [|a b l l' Hab _ IH]; intros Hy; [destruct Hy|].
  destruct Hy as [<-|Hy].
  - exists a. split; [now left|exact Hab].
  - destruct (IH Hy) as [x [Hx Hxy]]. exists x. split; [now right|exact Hxy].
Qed.

Lemma In_terminal_column (m : ndarray2 Q) (x : Q) :
  In x (map terminal (rows m)) ->
  exists row, In row (rows m) /\ terminal row = x.
Proof.
  intros H. apply in_map_iff in H. destruct H as [row [E Hrow]]. eauto.
Qed.

(** X1: a quantile level outside [0, 1] makes [getQuantilePath] raise
    [ValueError] on every array with at least one period. *)
Theorem getQuantilePath_bad_level (m : ndarray2 Q) (q : Q) :
  rectangular m ->
  (0 < ncols m)%nat ->
  q < 0 \/ 1 < q ->
  getQuantilePath m q = Raise ValueError.
Proof.
  intros Hrect Hc Hq. unfold getQuantilePath.
  rewrite (last_column_rectangular m Hrect Hc). cbn [bind].
  unfold Np.quantile. destruct (Qlt_le_dec q 0); [reflexivity|].
  destruct (Qlt_le_dec 1 q); [reflexivity|]. lra.
Qed.

Lemma getQuantilePath_bad_level_witness :
  getQuantilePath (mk_ndarray2 2 [[1; 3]; [1; 5]]) (3 # 2)
  = Raise ValueError.
Proof.
  apply (getQuantilePath_bad_level (mk_ndarray2 2 [[1; 3]; [1; 5]]) (3 # 2)).
  - unfold rectangular. cbn. repeat constructor.
  - cbn. lia.
  - right. reflexivity.
Defined.

(** X2: the quantile [getQuantilePath] returns lies between the terminal
    values of two paths of the array. *)
Theorem getQuantilePath_quantile_in_band (m : ndarray2 Q) (q quant : Q)
    (path : list Q) :
  0 <= q <= 1 ->
  getQuantilePath m q = Ok (quant, path) ->
  exists low high,
    In low (rows m) /\ In high (rows m)
    /\ terminal low <= quant <= terminal high.
Proof.
  intros Hq H. unfold getQuantilePath in H.
  destruct (last_column m) as [col|e] eqn:Ecol; [|discriminate H].
  cbn [bind] in H.
  destruct (Np.quantile col q) as [v|e] eqn:Ev; [|discriminate H].
  cbn [bind] in H.
  destruct (argmin _) as [i|e]; [|discriminate H]. cbn [bind] in H.
  destruct (getitem (rows m) (Z.of_nat i)) as [p|e]; [|discriminate H].
  cbn [bind] in H. injection H as -> ->.
  destruct (quantile_between col q quant Hq Ev) as [lo [hi [Hlo [Hhi Hb]]]].
  assert (Hcol : forall x, In x col ->
                   exists row, In row (rows m) /\ terminal row = x).
  { unfold last_column in Ecol. destruct (ncols m); [discriminate Ecol|].
    apply mapM_Ok_inv in Ecol. intros x Hx.
    destruct (Forall2_In_right _ _ _ _ Ecol Hx) as [row [Hrow Hget]].
    exists row. split; [exact Hrow|].
    cbn beta in Hget. pose proof (getitem_Ok_inv _ _ _ Hget) as Hvalid.
    assert (Hne : row <> []).
    { intros ->. unfold valid_index, position in Hvalid. cbn in Hvalid. lia. }
    rewrite (getitem_last row Hne) in Hget. congruence. }
  destruct (Hcol lo Hlo) as [rlo [Hrlo Elo]].
  destruct (Hcol hi Hhi) as [rhi [Hrhi Ehi]].
  exists rlo, rhi. rewrite Elo, Ehi. auto.
Qed.

Lemma getQuantilePath_quantile_in_band_witness :
  exists low high,
    In low [[1; 3]; [1; 5]; [2; 4]] /\ In high [[1; 3]; [1; 5]; [2; 4]]
    /\ terminal low <= 8 # 2 <= terminal high.
Proof.
  apply (getQuantilePath_quantile_in_band
           (mk_ndarray2 2 [[1; 3]; [1; 5]; [2; 4]]) (1 # 2) (8 # 2) [2; 4]).
  - split; discriminate.
  - reflexivity.
Defined.

Lemma getQuantilePath_parts (m : ndarray2 Q) (q quant : Q) (path : list Q) :
  getQuantilePath m q = Ok (quant, path) ->
  exists col,
    last_column m = Ok col /\ Np.quantile col q = Ok quant.
Proof.
  intros H. unfold getQuantilePath in H.
  destruct (last_column m) as [col|e]; [|discriminate H]. cbn [bind] in H.
  destruct (Np.quantile col q) as [v|e] eqn:Ev; [|discriminate H].
  cbn [bind] in H.
  destruct (argmin _) as [i|e]; [|discriminate H]. cbn [bind] in H.
  destruct (getitem (rows m) (Z.of_nat i)) as [p|e]; [|discriminate H].
  cbn [bind] in H. injection H as -> ->. exists col. split; [reflexivity|].
  exact Ev.
Qed.

(** X3: the quantiles [getQuantilePath] returns are ordered like their
    levels, so the 5th percentile is never above the median, nor the
    median above the 95th. *)
Theorem getQuantilePath_monotone_in_level (m : ndarray2 Q) (q q' : Q)
    (v v' : Q) (path path' : list Q) :
  0 <= q -> q <= q' -> q' <= 1 ->
  getQuantilePath m q = Ok (v, path) ->
  getQuantilePath m q' = Ok (v', path') ->
  v <= v'.
Proof.
  intros H0 Hqq H1 Hv Hv'.
  destruct (getQuantilePath_parts _ _ _ _ Hv) as [col [Ecol Equant]].
  destruct (getQuantilePath_parts _ _ _ _ Hv') as [col' [Ecol' Equant']].
  assert (col' = col) by congruence. subst col'.
  exact (quantile_monotone col q q' v v' H0 Hqq H1 Equant Equant').
Qed.

Lemma getQuantilePath_monotone_in_level_witness : 3 <= 5.
Proof.
  apply (getQuantilePath_monotone_in_level
           (mk_ndarray2 2 [[1; 3]; [1; 5]; [2; 4]]) 0 1 3 5 [1; 3] [1; 5]).
  - discriminate.
  - discriminate.
  - discriminate.
  - reflexivity.
  - reflexivity.
Defined.

Lemma Qabs_zero_eq (x y : Q) : Qabs (x - y) <= 0 -> y == x.
Proof.
  intros H. pose proof (Qabs_nonneg (x - y)) as Hn.
  assert (Hz : Qabs (x - y) == 0) by lra.
  revert Hz. apply Qabs_case; intros; lra.
Qed.

(** X4: at [q = 0] the extractor returns a path with the smallest
    terminal value of the array, and that value as the quantile; at
    [q = 1] a path with the largest one. *)
Theorem getQuantilePath_extremes (m : ndarray2 Q) :
  rectangular m ->
  (0 < nrows m)%nat ->
  (0 < ncols m)%nat ->
  (exists v path,
     getQuantilePath m 0 = Ok (v, path)
     /\ In path (rows m)
     /\ terminal path == v
     /\ forall row, In row (rows m) -> v <= terminal row)
  /\ (exists v path,
        getQuantilePath m 1 = Ok (v, path)
        /\ In path (rows m)
        /\ terminal path == v
        /\ forall row, In row (rows m) -> terminal row <= v).
Proof.
  intros Hrect Hr Hc.
  assert (Hne : map terminal (rows m) <> []).
  { unfold nrows in Hr. destruct (rows m); [cbn in Hr; lia|discriminate]. }
  split.
  - assert (Hq : 0 <= 0 <= 1) by lra.
    destruct (getQuantilePath_first_closest m 0 Hrect Hr Hc Hq)
      as [v [i [path [Hget [Hv [Hpath [Hmin _]]]]]]].
    destruct (quantile_zero_is_min _ Hne) as [v0 [x [Hv0 [Hx [Hvx Hall]]]]].
    assert (v0 = v) by congruence. subst v0.
    exists v, path. split; [exact Hget|].
    split; [eapply nth_error_In, Hpath|]. split.
    + apply in_map_iff in Hx. destruct Hx as [row [Ex Hrow]].
      apply In_nth_error in Hrow. destruct Hrow as [j Hj].
      specialize (Hmin j row Hj). rewrite Ex in Hmin.
      apply Qabs_zero_eq.
      setoid_replace (v - x) with 0 in Hmin by lra. exact Hmin.
    + intros row Hrow. apply Hall. now apply in_map.
  - assert (Hq : 0 <= 1 <= 1) by lra.
    destruct (getQuantilePath_first_closest m 1 Hrect Hr Hc Hq)
      as [v [i [path [Hget [Hv [Hpath [Hmin _]]]]]]].
    destruct (quantile_one_is_max _ Hne) as [v0 [x [Hv0 [Hx [Hvx Hall]]]]].
    assert (v0 = v) by congruence. subst v0.
    exists v, path. split; [exact Hget|].
    split; [eapply nth_error_In, Hpath|]. split.
    + apply in_map_iff in Hx. destruct Hx as [row [Ex Hrow]].
      apply In_nth_error in Hrow. destruct Hrow as [j Hj].
      specialize (Hmin j row Hj). rewrite Ex in Hmin.
      apply Qabs_zero_eq.
      setoid_replace (v - x) with 0 in Hmin by lra. exact Hmin.
    + intros row Hrow. apply Hall. now apply in_map.
Qed.

Lemma getQuantilePath_extremes_witness :
  let m := mk_ndarray2 2 [[1; 3]; [1; 5]; [2; 4]] in
  (exists v path,
     getQuantilePath m 0 = Ok (v, path)
     /\ In path (rows m)
     /\ terminal path == v
     /\ forall row, In row (rows m) -> v <= terminal row)
  /\ (exists v path,
        getQuantilePath m 1 = Ok (v, path)
        /\ In path (rows m)
        /\ terminal path == v
        /\ forall row, In row (rows m) -> terminal row <= v).
Proof.
  intros m. apply (getQuantilePath_extremes m).
  - unfold rectangular, m. cbn. repeat constructor.
  - unfold nrows, m. cbn. lia.
  - unfold m. cbn. lia.
Defined.

(** X5: on an array with a single path the extractor returns that path,
    with its terminal value as the quantile, whatever the level in
    [0, 1]. *)
Theorem getQuantilePath_single_path (c : nat) (p : list Q) (q : Q) :
  length p = S c ->
  0 <= q <= 1 ->
  exists v,
    getQuantilePath (mk_ndarray2 (S c) [p]) q = Ok (v, p)
    /\ v == terminal p.
Proof.
  intros Hp Hq. set (m := mk_ndarray2 (S c) [p]).
  assert (Hrect : rectangular m) by (unfold rectangular, m; cbn; auto).
  assert (Hr : (0 < nrows m)%nat) by (unfold nrows, m; cbn; lia).
  assert (Hc : (0 < ncols m)%nat) by (unfold m; cbn; lia).
  destruct (getQuantilePath_first_closest m q Hrect Hr Hc Hq)
    as [v [i [path [Hget [Hv [Hpath _]]]]]].
  assert (path = p).
  { unfold m in Hpath. cbn [rows] in Hpath.
    destruct i as [|i]; cbn in Hpath; [congruence|].
    destruct i; discriminate Hpath. }
  subst path. exists v. split; [exact Hget|].
  destruct (quantile_between _ q v Hq Hv) as [lo [hi [Hlo [Hhi Hb]]]].
  unfold m in Hlo, Hhi. cbn in Hlo, Hhi.
  destruct Hlo as [<-|[]]. destruct Hhi as [<-|[]]. lra.
Qed.

Lemma getQuantilePath_single_path_witness :
  exists v,
    getQuantilePath (mk_ndarray2 3 [[1; 3; 2]]) (1 # 3) = Ok (v, [1; 3; 2])
    /\ v == terminal [1; 3; 2].
Proof.
  apply (getQuantilePath_single_path 2 [1; 3; 2] (1 # 3)).
  - reflexivity.
  - split; discriminate.
Defined.

(** * Further properties of the simulators *)

(** The body either returns the closed form or raises [IndexError]. *)
Lemma trajectories_of_outcome data allocation payoffs sims :
  (Forall (Forall (valid_index (length data))) (rows sims)
   /\ payable payoffs data sims
   /\ trajectories_of data allocation payoffs sims
      = Ok (mk_ndarray2 (ncols sims)
              (map (fun row =>
                      cumprod (map (fun k => period_factor allocation payoffs
                                               (observed data k)) row))
                 (rows sims))))
  \/ trajectories_of data allocation payoffs sims = Raise IndexError.
Proof.
  destruct (take (map category data) sims) as [rc|e] eqn:E.
  - apply take_Ok_inv in E. rewrite length_map in E.
    destruct (take payoffs (amap (fun k => category (observed data k)) sims))
      as [pc|e] eqn:Ep.
    + apply take_Ok_inv, payable_rows in Ep. left.
      split; [exact E|]. split; [exact Ep|].
      now apply trajectories_of_drawn.
    + right. apply take_Raise_inv in Ep. destruct Ep as [_ Hbad].
      apply trajectories_of_unpayable; [exact E|].
      intros Hpay. apply Hbad. now apply payable_rows.
  - right. destruct (take_Raise_inv _ _ _ E) as [-> _].
    unfold trajectories_of. rewrite E. reflexivity.
Qed.

(** On a non-empty pool covered by the payoffs, with positive sizes,
    [bitcoinSim] returns the closed form of the positions it draws. *)
Lemma bitcoinSim_closed {G : BitGenerator} (data : DataFrame)
    (allocation : Q) (payoffs : list Q) (years samples : Z)
    (s : rng_state) :
  lawful G -> data <> [] -> covers payoffs data ->
  (0 < years)%Z -> (0 < samples)%Z ->
  exists sims s',
    ncols sims = Z.to_nat years
    /\ length (rows sims) = Z.to_nat samples
    /\ Forall (fun row =>
                 length row = Z.to_nat years
                 /\ Forall (fun x => (0 <= x < Z.of_nat (length data))%Z) row)
         (rows sims)
    /\ bitcoinSim data allocation payoffs years samples s
       = (Ok (mk_ndarray2 (ncols sims)
                (map (fun row =>
                        cumprod (map (fun k => period_factor allocation
                                                 payoffs (observed data k))
                                   row))
                   (rows sims))), s').
Proof.
  intros HG Hdata Hcov Hy Hs.
  assert (HM : (0 < Z.of_nat (length (index data)))%Z).
  { rewrite index_length. destruct data; [contradiction|cbn [length]; lia]. }
  destruct (randint_array_draws (Z.of_nat (length (index data)))
              samples years s Hs Hy) as [sims [s' Hdraw]].
  destruct (randint_array_spec _ _ _ _ _ _ HG (or_introl HM) Hdraw)
    as [_ [_ [Hcols [Hrows Hshape]]]].
  rewrite index_length in Hshape.
  exists sims, s'. repeat (split; [assumption|]).
  unfold bitcoinSim, rbind. rewrite choice_PopInt by exact HM.
  rewrite Hdraw. unfold lift.
  rewrite (trajectories_of_valid data allocation payoffs sims).
  - reflexivity.
  - apply in_range_valid. eapply shaped_in_range, Hshape.
  - now apply covers_valid.
Qed.

Lemma prod_upto_constant (c : Q) (l : list Q) (k : nat) :
  Forall (fun x => x == c) l -> (k <= length l)%nat ->
  prod_upto k l == c ^ Z.of_nat k.
Proof.
  intros H. revert k. induction H as [|x xs Hx _ IH]; intros [|k] Hk;
    cbn [length] in Hk; try lia; try reflexivity.
  cbn [prod_upto]. rewrite Hx, IH by lia.
  rewrite Nat2Z.inj_succ. unfold Z.succ.
  rewrite Qpower_plus' by lia. change (c ^ 1) with c. ring.
Qed.

(** X6: on a pool with a single observation every path is the same
    geometric sequence: entry (i, t) is the combined factor of that
    observation to the power [t + 1]. *)
Theorem bitcoinSim_single_observation {G : BitGenerator} (r : row)
    (allocation : Q) (payoffs : list Q) (years samples : Z)
    (s : rng_state) :
  lawful G ->
  covers payoffs [r] ->
  (0 < years)%Z ->
  (0 < samples)%Z ->
  exists m s',
    bitcoinSim [r] allocation payoffs years samples s = (Ok m, s')
    /\ nrows m = Z.to_nat samples
    /\ forall i t,
         (i < Z.to_nat samples)%nat -> (t < Z.to_nat years)%nat ->
         nth t (nth i (rows m) []) 0
         == combined allocation payoffs r ^ Z.of_nat (S t).
Proof.
  intros HG Hcov Hy Hs.
  assert (Hne : [r] <> []) by discriminate.
  destruct (bitcoinSim_closed [r] allocation payoffs years samples s
              HG Hne Hcov Hy Hs) as [sims [s' [Hcols [Hrows [Hshape Hsim]]]]].
  eexists. exists s'. split; [exact Hsim|].
  unfold nrows. cbn [rows]. split; [now rewrite length_map|].
  intros i t Hi Ht.
  rewrite (nth_indep _ [] (cumprod (map (fun k => period_factor allocation
                                           payoffs (observed [r] k)) [])))
    by (rewrite length_map; lia).
  rewrite (map_nth (fun row => cumprod (map _ row))).
  rewrite Forall_forall in Hshape.
  destruct (Hshape (nth i (rows sims) [])) as [Hlen Hrange];
    [apply nth_In; lia|].
  rewrite nth_cumprod by (rewrite length_map; lia).
  apply prod_upto_constant; [|rewrite length_map; lia].
  rewrite Forall_map. eapply Forall_impl; [|exact Hrange]. cbn beta.
  intros k Hk. cbn [length] in Hk.
  assert (k = 0%Z) by lia. subst k.
  change (observed [r] 0) with r. apply period_factor_combined.
  unfold covers in Hcov. apply Forall_inv in Hcov. lia.
Qed.

Lemma bitcoinSim_single_observation_witness :
  exists m s',
    bitcoinSim (G := lcg) [mk_row 0 (1 # 5) 0] (1 # 10) [1] 3 2 1234%Z
    = (Ok m, s')
    /\ nrows m = Z.to_nat 2
    /\ forall i t,
         (i < Z.to_nat 2)%nat -> (t < Z.to_nat 3)%nat ->
         nth t (nth i (rows m) []) 0
         == combined (1 # 10) [1] (mk_row 0 (1 # 5) 0) ^ Z.of_nat (S t).
Proof.
  apply (bitcoinSim_single_observation (G := lcg) (mk_row 0 (1 # 5) 0)
           (1 # 10) [1] 3 2 1234%Z).
  - exact lcg_lawful.
  - unfold covers. repeat constructor; cbn; lia.
  - lia.
  - lia.
Defined.




Lemma category_observed data data' k :
  map category data = map category data' ->
  category (observed data k) = category (observed data' k).
Proof.
  intros H. unfold observed.
  assert (Hlen : length data = length data').
  { rewrite <- (length_map category data), H. apply length_map. }
  rewrite <- Hlen.
  rewrite <- (map_nth category data), <- (map_nth category data').
  now rewrite H.
Qed.

Lemma payable_same_categories payoffs data data' sims :
  map category data = map category data' ->
  payable payoffs data sims -> payable payoffs data' sims.
Proof.
  intros Hcat H. unfold payable in *.
  eapply Forall_impl; [|exact H]. cbn beta. intros row Hrow.
  eapply Forall_impl; [|exact Hrow]. cbn beta. intros k Hk.
  now rewrite <- (category_observed data data' k Hcat).
Qed.

Lemma trajectories_of_full_allocation data data' payoffs sims :
  map category data = map category data' ->
  outcome_eq (trajectories_of data 1 payoffs sims)
    (trajectories_of data' 1 payoffs sims).
Proof.
  intros Hcat.
  assert (Hlen : length data = length data').
  { rewrite <- (length_map category data), Hcat. apply length_map. }
  destruct (trajectories_of_outcome data 1 payoffs sims)
    as [[Hv [Hp E]]|E];
    destruct (trajectories_of_outcome data' 1 payoffs sims)
      as [[Hv' [Hp' E']]|E'].
  - rewrite E, E'. cbn [outcome_eq]. split; [reflexivity|]. cbn [rows].
    apply Forall2_map_same, Forall_forall. intros row _.
    apply cumprod_Qeq, Forall2_map_same, Forall_forall. intros k _.
    unfold period_factor.
    rewrite (category_observed data data' k Hcat). ring.
  - exfalso. rewrite Hlen in Hv.
    rewrite (trajectories_of_drawn data' 1 payoffs sims Hv
               (payable_same_categories _ _ _ _ Hcat Hp)) in E'.
    discriminate E'.
  - exfalso. rewrite <- Hlen in Hv'.
    rewrite (trajectories_of_drawn data 1 payoffs sims Hv'
               (payable_same_categories _ _ _ _ (eq_sym Hcat) Hp')) in E.
    discriminate E.
  - rewrite E, E'. reflexivity.
Qed.

(** X8: at allocation 1 the trajectories do not depend on the returns
    of the pool: two pools with the same index labels and the same
    categories give the same outcome and final generator state in both
    simulators. *)
Theorem full_allocation_ignores_returns {G : BitGenerator}
    (data data' : DataFrame) (payoffs : list Q) (years samples : Z)
    (s : rng_state) :
  index data = index data' ->
  map category data = map category data' ->
  (outcome_eq (fst (bitcoinSim data 1 payoffs years samples s))
     (fst (bitcoinSim data' 1 payoffs years samples s))
   /\ snd (bitcoinSim data 1 payoffs years samples s)
      = snd (bitcoinSim data' 1 payoffs years samples s))
  /\ (outcome_eq (fst (sp500Sim data 1 payoffs years samples s))
        (fst (sp500Sim data' 1 payoffs years samples s))
      /\ snd (sp500Sim data 1 payoffs years samples s)
         = snd (sp500Sim data' 1 payoffs years samples s)).
Proof.
  intros Hidx Hcat. unfold bitcoinSim, sp500Sim, rbind, lift.
  rewrite <- Hidx. split.
  - destruct (choice (PopInt _) samples years s) as [[sims|e] s'];
      cbn [fst snd outcome_eq]; split; try reflexivity.
    now apply trajectories_of_full_allocation.
  - destruct (choice (PopArray _) samples years s) as [[sims|e] s'];
      cbn [fst snd outcome_eq]; split; try reflexivity.
    now apply trajectories_of_full_allocation.
Qed.

Lemma full_allocation_ignores_returns_witness :
  let data := Sample.df2 in
  let data' := [mk_row 0 (7 # 5) 1; mk_row 1 (-3 # 5) 0] in
  (outcome_eq (fst (bitcoinSim (G := lcg) data 1 [5; 0] 3 2 1234%Z))
     (fst (bitcoinSim (G := lcg) data' 1 [5; 0] 3 2 1234%Z))
   /\ snd (bitcoinSim (G := lcg) data 1 [5; 0] 3 2 1234%Z)
      = snd (bitcoinSim (G := lcg) data' 1 [5; 0] 3 2 1234%Z))
  /\ (outcome_eq (fst (sp500Sim (G := lcg) data 1 [5; 0] 3 2 1234%Z))
        (fst (sp500Sim (G := lcg) data' 1 [5; 0] 3 2 1234%Z))
      /\ snd (sp500Sim (G := lcg) data 1 [5; 0] 3 2 1234%Z)
         = snd (sp500Sim (G := lcg) data' 1 [5; 0] 3 2 1234%Z)).
Proof.
  intros data data'.
  apply (full_allocation_ignores_returns (G := lcg) data data' [5; 0] 3 2
           1234%Z); reflexivity.
Defined.



(** [np.random.choice(data.index, ...)] hands back the labels at the
    positions [np.random.choice(len(data.index), ...)] draws. *)
Lemma choice_PopArray_labels {G : BitGenerator} (data : DataFrame)
    (d0 d1 : Z) (s : rng_state) :
  lawful G ->
  choice (PopArray (index data)) d0 d1 s
  = match choice (PopInt (Z.of_nat (length (index data)))) d0 d1 s with
    | (Ok idx, s') =>
        (Ok (amap (fun k => label (observed data k)) idx), s')
    | (Raise e, s') => (Raise e, s')
    end.
Proof.
  intros HG. unfold choice. cbn [pop_size].
  set (M := Z.of_nat (length (index data))).
  destruct ((M <=? 0)%Z && negb (d0 * d1 =? 0)%Z) eqn:Econd; [reflexivity|].
  unfold rbind, lift.
  destruct (randint_array M d0 d1 s) as [[idx|e] s'] eqn:Ed; [|reflexivity].
  f_equal.
  assert (HM : (0 < M \/ d0 * d1 = 0)%Z).
  { destruct (Z.leb_spec M 0); [|lia].
    destruct (Z.eqb_spec (d0 * d1) 0); [lia|discriminate Econd]. }
  destruct (randint_array_spec _ _ _ _ _ _ HG HM Ed)
    as [_ [_ [_ [_ Hshape]]]].
  pose proof (shaped_in_range _ _ _ Hshape) as Hrange.
  rewrite (take_valid (index data) idx (label row0))
    by (apply in_range_valid; exact Hrange).
  f_equal. unfold amap. f_equal. apply map_ext. intros row.
  apply map_ext. intros k. unfold index, observed.
  rewrite length_map. apply map_nth.
Qed.

Lemma choice_PopInt_in_range {G : BitGenerator} (M : nat) (d0 d1 : Z)
    (s s' : rng_state) (idx : ndarray2 Z) :
  lawful G ->
  choice (PopInt (Z.of_nat M)) d0 d1 s = (Ok idx, s') ->
  in_range M idx.
Proof.
  intros HG. rewrite choice_PopInt_any.
  destruct ((Z.of_nat M <=? 0)%Z && negb (d0 * d1 =? 0)%Z) eqn:Econd;
    [discriminate|].
  intros Ed.
  assert (HM : (0 < Z.of_nat M \/ d0 * d1 = 0)%Z).
  { destruct (Z.leb_spec (Z.of_nat M) 0); [|lia].
    destruct (Z.eqb_spec (d0 * d1) 0); [lia|discriminate Econd]. }
  destruct (randint_array_spec _ _ _ _ _ _ HG HM Ed)
    as [_ [_ [_ [_ Hshape]]]].
  eapply shaped_in_range, Hshape.
Qed.

Lemma observed_relabel data k :
  (0 <= k < Z.of_nat (length data))%Z ->
  observed (relabel data) k = observed data (label (observed data k)).
Proof.
  intros Hk. unfold observed at 1. unfold relabel at 2.
  rewrite (nth_indep _ row0 (observed data (label row0))).
  - rewrite (map_nth (fun r => observed data (label r))).
    unfold relabel. rewrite length_map. reflexivity.
  - unfold relabel. rewrite !length_map. unfold position.
    destruct (Z.ltb_spec k 0); lia.
Qed.

Lemma trajectories_of_relabel data allocation payoffs idx :
  in_range (length data) idx ->
  Forall (fun r => valid_index (length data) (label r)) data ->
  trajectories_of data allocation payoffs
    (amap (fun k => label (observed data k)) idx)
  = trajectories_of (relabel data) allocation payoffs idx.
Proof.
  intros Hrange Hlab.
  pose proof (in_range_valid _ _ Hrange) as Hvalid.
  assert (Hlen : length (relabel data) = length data)
    by (unfold relabel; apply length_map).
  assert (Hv1 : Forall (Forall (valid_index (length data)))
                  (rows (amap (fun k => label (observed data k)) idx))).
  { unfold amap. cbn [rows]. rewrite Forall_map.
    eapply Forall_impl; [|exact Hvalid]. cbn beta. intros row Hrow.
    rewrite Forall_map. eapply Forall_impl; [|exact Hrow]. cbn beta.
    intros k Hk. rewrite Forall_forall in Hlab.
    apply Hlab. now apply observed_In. }
  assert (Hv2 : Forall (Forall (valid_index (length (relabel data))))
                  (rows idx)) by (rewrite Hlen; exact Hvalid).
  assert (Hobs : forall row k, In row (rows idx) -> In k row ->
            observed (relabel data) k
            = observed data (label (observed data k))).
  { intros row k Hrow Hk. apply observed_relabel.
    unfold in_range in Hrange. rewrite Forall_forall in Hrange.
    specialize (Hrange row Hrow). rewrite Forall_forall in Hrange.
    now apply Hrange. }
  assert (Hpay : payable payoffs data
                   (amap (fun k => label (observed data k)) idx)
                 <-> payable payoffs (relabel data) idx).
  { unfold payable, amap. cbn [rows]. rewrite Forall_map.
    split; intros H; apply Forall_forall; intros row Hrow;
      rewrite Forall_forall in H; specialize (H row Hrow).
    - rewrite Forall_map in H. apply Forall_forall. intros k Hk.
      rewrite Forall_forall in H. rewrite (Hobs row k Hrow Hk).
      now apply H.
    - rewrite Forall_map. apply Forall_forall. intros k Hk.
      rewrite Forall_forall in H. rewrite <- (Hobs row k Hrow Hk).
      now apply H. }
  destruct (trajectories_of_outcome (relabel data) allocation payoffs idx)
    as [[_ [Hp E]]|E]; rewrite E.
  - rewrite trajectories_of_drawn; [|exact Hv1|now apply Hpay].
    unfold amap. cbn [ncols rows]. f_equal. f_equal.
    rewrite map_map. apply map_ext_in. intros row Hrow. f_equal.
    rewrite map_map. apply map_ext_in. intros k Hk.
    now rewrite (Hobs row k Hrow Hk).
  - apply trajectories_of_unpayable; [exact Hv1|].
    intros Hp. apply Hpay in Hp.
    rewrite (trajectories_of_drawn (relabel data) allocation payoffs idx
               Hv2 Hp) in E.
    discriminate E.
Qed.

(** X10: when every index label is a valid position, [sp500Sim] on a
    pool is [bitcoinSim] on the pool read through its labels (row [k]
    replaced by the row at position [label k]): same result, same final
    generator state. *)
Theorem sp500Sim_reads_through_labels {G : BitGenerator}
    (data : DataFrame) (allocation : Q) (payoffs : list Q)
    (years samples : Z) (s : rng_state) :
  lawful G ->
  Forall (fun r => valid_index (length data) (label r)) data ->
  sp500Sim data allocation payoffs years samples s
  = bitcoinSim (relabel data) allocation payoffs years samples s.
Proof.
  intros HG Hlab. unfold sp500Sim, bitcoinSim, rbind.
  rewrite (choice_PopArray_labels data samples years s HG).
  assert (Hlen : length (index (relabel data)) = length (index data)).
  { unfold index, relabel. now rewrite !length_map. }
  rewrite Hlen.
  destruct (choice (PopInt _) samples years s) as [[idx|e] s'] eqn:Ec;
    [|reflexivity].
  unfold lift. f_equal.
  rewrite index_length in Ec.
  apply trajectories_of_relabel; [|exact Hlab].
  exact (choice_PopInt_in_range _ _ _ _ _ _ HG Ec).
Qed.

Lemma sp500Sim_reads_through_labels_witness :
  let data := [mk_row 1 (1 # 5) 1; mk_row 0 (-1 # 5) 0] in
  sp500Sim (G := lcg) data (1 # 10) [5; 0] 3 2 1234%Z
  = bitcoinSim (G := lcg) (relabel data) (1 # 10) [5; 0] 3 2 1234%Z.
Proof.
  intros data.
  apply (sp500Sim_reads_through_labels (G := lcg) data (1 # 10) [5; 0] 3 2
           1234%Z).
  - exact lcg_lawful.
  - repeat (apply Forall_cons || apply Forall_nil);
      vm_compute; (split; [discriminate|reflexivity]).
Defined.

(** X11: when no index label is a valid position (a slice of a longer
    table whose index was not reset), [sp500Sim] on a non-empty pool with
    positive sizes raises [IndexError], whatever the allocation and the
    payoffs. *)
Theorem sp500Sim_foreign_labels {G : BitGenerator} (data : DataFrame)
    (allocation : Q) (payoffs : list Q) (years samples : Z)
    (s : rng_state) :
  lawful G ->
  data <> [] ->
  Forall (fun r => ~ valid_index (length data) (label r)) data ->
  (0 < years)%Z ->
  (0 < samples)%Z ->
  exists s',
    sp500Sim data allocation payoffs years samples s
    = (Raise IndexError, s').
Proof.
  intros HG Hdata Hlab Hy Hs.
  assert (HM : (0 < Z.of_nat (length (index data)))%Z).
  { rewrite index_length. destruct data; [contradiction|cbn [length]; lia]. }
  unfold sp500Sim, rbind.
  rewrite (choice_PopArray_labels data samples years s HG).
  rewrite choice_PopInt by exact HM.
  destruct (randint_array_draws (Z.of_nat (length (index data)))
              samples years s Hs Hy) as [idx [s' Hdraw]].
  destruct (randint_array_spec _ _ _ _ _ _ HG (or_introl HM) Hdraw)
    as [_ [_ [_ [Hrows Hshape]]]].
  rewrite Hdraw. exists s'. unfold lift. f_equal.
  destruct (trajectories_of_outcome data allocation payoffs
              (amap (fun k => label (observed data k)) idx))
    as [[Hvalid _]|E]; [exfalso|exact E].
  unfold amap in Hvalid. cbn [rows] in Hvalid.
  destruct (rows idx) as [|row rest]; [cbn in Hrows; lia|].
  apply Forall_inv in Hshape. destruct Hshape as [Hlen Hrange].
  cbn [map] in Hvalid. apply Forall_inv in Hvalid.
  destruct row as [|k ks]; [cbn in Hlen; lia|].
  apply Forall_inv in Hrange. cbn [map] in Hvalid.
  apply Forall_inv in Hvalid.
  rewrite Forall_forall in Hlab.
  apply (Hlab (observed data k)); [|exact Hvalid].
  apply observed_In. rewrite index_length in Hrange.
  unfold valid_index, position. destruct (Z.ltb_spec k 0); lia.
Qed.

Lemma sp500Sim_foreign_labels_witness :
  exists s',
    sp500Sim (G := lcg) [mk_row 7 (1 # 5) 1; mk_row 8 (-1 # 5) 0] (1 # 10)
      [5; 0] 3 2 1234%Z
    = (Raise IndexError, s').
Proof.
  apply (sp500Sim_foreign_labels (G := lcg)
           [mk_row 7 (1 # 5) 1; mk_row 8 (-1 # 5) 0] (1 # 10) [5; 0] 3 2
           1234%Z).
  - exact lcg_lawful.
  - discriminate.
  - repeat (apply Forall_cons || apply Forall_nil);
      vm_compute; intros [_ H]; discriminate H.
  - lia.
  - lia.
Defined.

(** * The categorised table *)

Lemma searchsorted_left_le_length bins x :
  (searchsorted_left bins x <= length bins)%nat.
Proof.
  induction bins as [|e es IH]; cbn [searchsorted_left length]; [lia|].
  destruct (edge_ltb e x); lia.
Qed.

Lemma cut1_below_bins bins include_lowest x i :
  cut1 bins include_lowest x = Some i -> (S i < length bins)%nat.
Proof.
  unfold cut1. pose proof (searchsorted_left_le_length bins (Fin x)) as Hle.
  set (k := searchsorted_left bins (Fin x)) in *.
  destruct bins as [|e0 es].
  - cbn [length] in *. destruct (Nat.eqb_spec k 0); cbn; [discriminate|lia].
  - set (ids := if include_lowest && edge_eqb (Fin x) e0 then 1%nat else k).
    assert (Hids : (ids <= length (e0 :: es))%nat).
    { subst ids. destruct (include_lowest && _); [cbn [length]; lia|exact Hle]. }
    destruct (Nat.eqb_spec ids (length (e0 :: es))); [discriminate|].
    destruct (Nat.eqb_spec ids 0); [discriminate|].
    cbn [orb]. intros H. injection H as <-. lia.
Qed.

Lemma edge_lt_asym a b : edge_lt a b -> edge_ltb b a = false.
Proof.
  destruct a as [|x|], b as [|y|]; try reflexivity; try discriminate.
  rewrite edge_lt_Fin. intros H. cbn.
  destruct (Qlt_le_dec y x); [lra|reflexivity].
Qed.

Lemma edge_lt_neq_sym a b : edge_lt a b -> edge_eqb a b = false.
Proof.
  destruct a as [|x|], b as [|y|]; try reflexivity; try discriminate.
  rewrite edge_lt_Fin. intros H. cbn.
  destruct (Qeq_bool x y) eqn:E; [|reflexivity].
  apply Qeq_bool_iff in E. lra.
Qed.

Lemma increasing_passes_checks bins :
  strictly_increasing bins ->
  decreases bins = false /\ equal_neighbours bins = false.
Proof.
  unfold strictly_increasing.
  induction 1 as [|a l Hs IH Hhd]; [split; reflexivity|].
  destruct l as [|b l']; [split; reflexivity|].
  apply HdRel_inv in Hhd. destruct IH as [IH1 IH2].
  change (decreases (a :: b :: l'))
    with (edge_ltb b a || decreases (b :: l')).
  change (equal_neighbours (a :: b :: l'))
    with (edge_eqb a b || equal_neighbours (b :: l')).
  rewrite (edge_lt_asym a b Hhd), (edge_lt_neq_sym a b Hhd), IH1, IH2.
  split; reflexivity.
Qed.

Lemma pd_cut_increasing bins include_lowest xs :
  strictly_increasing bins -> bins <> [] ->
  pd_cut bins include_lowest xs = Ok (cut bins include_lowest xs).
Proof.
  intros Hinc Hne. destruct (increasing_passes_checks bins Hinc) as [Hd He].
  unfold pd_cut. destruct bins; [contradiction|].
  rewrite Hd, He. reflexivity.
Qed.

Lemma pd_cut_Ok_inv bins include_lowest xs cats :
  pd_cut bins include_lowest xs = Ok cats ->
  cats = cut bins include_lowest xs.
Proof.
  unfold pd_cut. destruct bins; [discriminate|].
  destruct (decreases _); [discriminate|].
  destruct (_ && _); [discriminate|]. congruence.
Qed.

Lemma concat_columns_category (f : Q -> option nat) rets i r :
  In r (concat_columns i rets (map f rets)) ->
  raw_category r = f (raw_return r).
Proof.
  revert i. induction rets as [|x xs IH]; intros i H; [destruct H|].
  cbn [map concat_columns] in H. destruct H as [<-|H]; [reflexivity|].
  exact (IH _ H).
Qed.

Lemma astype_int_rows t df row :
  astype_int t = Ok df -> In row df ->
  exists r c,
    In r t /\ raw_category r = Some c
    /\ row = mk_row (raw_label r) (raw_return r) (Z.of_nat c).
Proof.
  intros H Hrow. unfold astype_int in H. apply mapM_Ok_inv in H.
  destruct (Forall2_In_right _ _ _ _ H Hrow) as [r [Hr Hconv]].
  cbn beta in Hconv. destruct (raw_category r) as [c|] eqn:Ec;
    [|discriminate Hconv].
  exists r, c. split; [exact Hr|]. split; [exact Ec|]. congruence.
Qed.

(** X12: whatever the bins and the returns, every category of the table
    the scripts build is a valid position of a payoff vector with one
    entry per bin: the table is covered. *)
Theorem df_agg_covered (bins : list edge) (annual_returns : list Q)
    (payoffs : list Q) (df : DataFrame) :
  df_agg_btc bins annual_returns = Ok df
  \/ df_agg_spy bins annual_returns = Ok df ->
  S (length payoffs) = length bins ->
  covers payoffs df.
Proof.
  intros H Hlen. unfold covers. apply Forall_forall. intros row Hrow.
  assert (Hraw : exists include_lowest r c,
             raw_category r = Some c
             /\ raw_category r = cut1 bins include_lowest (raw_return r)
             /\ row = mk_row (raw_label r) (raw_return r) (Z.of_nat c)).
  { destruct H as [H|H].
    - unfold df_agg_btc in H.
      destruct (pd_cut bins true annual_returns) as [cats|e] eqn:Ec;
        [|discriminate H].
      apply pd_cut_Ok_inv in Ec. subst cats. cbn [bind] in H.
      destruct (astype_int_rows _ _ _ H Hrow) as [r [c [Hr [Hc Erow]]]].
      exists true, r, c. split; [exact Hc|]. split; [|exact Erow].
      unfold dropna_category in Hr. apply filter_In in Hr.
      destruct Hr as [Hr _].
      exact (concat_columns_category (cut1 bins true) _ _ _ Hr).
    - unfold df_agg_spy in H.
      destruct (pd_cut bins false annual_returns) as [cats|e] eqn:Ec;
        [|discriminate H].
      apply pd_cut_Ok_inv in Ec. subst cats. cbn [bind] in H.
      destruct (astype_int_rows _ _ _ H Hrow) as [r [c [Hr [Hc Erow]]]].
      exists false, r, c. split; [exact Hc|]. split; [|exact Erow].
      exact (concat_columns_category (cut1 bins false) _ _ _ Hr). }
  destruct Hraw as [lowest [r [c [Hc [Hcut ->]]]]]. cbn [category].
  rewrite Hc in Hcut. symmetry in Hcut. apply cut1_below_bins in Hcut. lia.
Qed.

Lemma df_agg_covered_witness :
  covers [5; 0]
    [mk_row 0 (1 # 5) 1; mk_row 1 (-1 # 5) 0; mk_row 2 0 0].
Proof.
  apply (df_agg_covered [NegInf; Fin 0; PosInf] [1 # 5; -1 # 5; 0] [5; 0]).
  - left. reflexivity.
  - reflexivity.
Defined.

(** A value above the first edge and not above the last falls in a
    bin. *)
Lemma cut1_located bins include_lowest r :
  strictly_increasing bins ->
  edge_lt (hd PosInf bins) (Fin r) ->
  edge_le (Fin r) (last bins NegInf) ->
  exists i, cut1 bins include_lowest r = Some i
            /\ right_closed_bin bins r i.
Proof.
  intros Hinc Hfirst Hlast.
  apply strictly_increasing_strong in Hinc.
  destruct (searchsorted_left_split bins (Fin r) Hinc) as [Hk [Hlt Hle]].
  set (k := searchsorted_left bins (Fin r)) in *.
  destruct bins as [|e es]; [discriminate Hfirst|].
  cbn [hd] in Hfirst.
  assert (Hk1 : (1 <= k)%nat).
  { subst k. cbn [searchsorted_left]. unfold edge_lt in Hfirst.
    rewrite Hfirst. lia. }
  assert (Hk2 : (k < length (e :: es))%nat).
  { destruct (Nat.eq_dec k (length (e :: es))) as [E|E]; [|lia].
    exfalso.
    apply (edge_lt_not_le (last (e :: es) NegInf) (Fin r)); [|exact Hlast].
    rewrite last_is_nth, (nth_indep _ NegInf PosInf) by (cbn [length]; lia).
    apply Hlt. cbn [length] in *. lia. }
  exists (k - 1)%nat. split.
  - unfold cut1. fold k.
    rewrite (edge_lt_neq _ _ Hfirst), andb_false_r.
    destruct (Nat.eqb_spec k (length (e :: es))); [lia|].
    destruct (Nat.eqb_spec k 0); [lia|]. reflexivity.
  - split; [apply Hlt; lia|].
    replace (S (k - 1)) with k by lia. apply Hle. lia.
Qed.

(** When every return gets a category, nothing is dropped and the table
    has one row per return, labelled from [i] on. *)
Lemma astype_int_total (f : Q -> option nat) (rets : list Q) (i : Z) :
  Forall (fun r => exists c, f r = Some c) rets ->
  exists df,
    astype_int (dropna_category (concat_columns i rets (map f rets)))
    = Ok df
    /\ astype_int (concat_columns i rets (map f rets)) = Ok df
    /\ map label df = map (fun k => (i + Z.of_nat k)%Z) (seq 0 (length rets))
    /\ map annual_returns df = rets
    /\ Forall (fun row => exists c, category row = Z.of_nat c
                                     /\ f (annual_returns row) = Some c) df.
Proof.
  intros H. revert i. induction H as [|r rets [c Hc] _ IH]; intros i.
  - exists []. repeat split; constructor.
  - destruct (IH (i + 1)%Z) as [df [H1 [H2 [Hl [Hr Hf]]]]].
    exists (mk_row i r (Z.of_nat c) :: df).
    cbn [map concat_columns dropna_category filter raw_category].
    rewrite Hc. fold (dropna_category
                        (concat_columns (i + 1) rets (map f rets))).
    unfold astype_int in *. cbn [mapM raw_category raw_label raw_return].
    cbn [bind]. rewrite H1, H2. cbn [bind].
    split; [reflexivity|]. split; [reflexivity|].
    cbn [map label annual_returns category length seq]. split.
    + f_equal; [lia|]. rewrite Hl, <- seq_shift, map_map.
      apply map_ext. intros k. lia.
    + split; [now rewrite Hr|].
      constructor; [exists c; split; [reflexivity|exact Hc]|exact Hf].
Qed.

Lemma df_agg_btc_table (bins : list edge) (annual_returns : list Q) :
  strictly_increasing bins ->
  hd PosInf bins = NegInf ->
  last bins NegInf = PosInf ->
  exists df,
    df_agg_btc bins annual_returns = Ok df
    /\ default_index df
    /\ map Pd.annual_returns df = annual_returns
    /\ Forall (fun row =>
                 exists c, category row = Z.of_nat c
                           /\ cut1 bins true (Pd.annual_returns row) = Some c
                           /\ right_closed_bin bins (Pd.annual_returns row) c)
         df.
Proof.
  intros Hinc Hfirst Hlast.
  assert (Hne : bins <> []) by (intros ->; discriminate Hfirst).
  assert (Hall : forall r, exists i,
             cut1 bins true r = Some i /\ right_closed_bin bins r i).
  { intros r. apply cut1_located; [exact Hinc| |].
    - rewrite Hfirst. reflexivity.
    - rewrite Hlast. reflexivity. }
  destruct (astype_int_total (cut1 bins true) annual_returns 0)
    as [df [H1 [_ [Hl [Hr Hf]]]]].
  { apply Forall_forall. intros r _. destruct (Hall r) as [i [Hi _]]. eauto. }
  exists df. split.
  { unfold df_agg_btc. rewrite pd_cut_increasing by assumption.
    cbn [bind]. exact H1. }
  split.
  { unfold default_index, index. rewrite Hl.
    rewrite <- Hr at 1. rewrite (length_map Pd.annual_returns).
    apply map_ext. intros k. lia. }
  split; [exact Hr|].
  eapply Forall_impl; [|exact Hf]. cbn beta. intros row [c [Ec Hrow]].
  destruct (Hall (Pd.annual_returns row)) as [i [Hi Hbin]].
  exists c. split; [exact Ec|]. split; [exact Hrow|]. congruence.
Qed.

(** X13: with strictly increasing bins that start at minus infinity and
    end at plus infinity, the table of safe-heaven.py keeps every return:
    one row per return in order, indexed 0..n-1, each in the bin
    [(edge[c], edge[c+1]]] of its category [c]. *)
Theorem df_agg_btc_keeps_all (bins : list edge) (annual_returns : list Q) :
  strictly_increasing bins ->
  hd PosInf bins = NegInf ->
  last bins NegInf = PosInf ->
  exists df,
    df_agg_btc bins annual_returns = Ok df
    /\ default_index df
    /\ map Pd.annual_returns df = annual_returns
    /\ Forall (fun row =>
                 (0 <= category row)%Z
                 /\ right_closed_bin bins (Pd.annual_returns row)
                      (Z.to_nat (category row))) df.
Proof.
  intros Hinc Hfirst Hlast.
  destruct (df_agg_btc_table bins annual_returns Hinc Hfirst Hlast)
    as [df [H1 [Hidx [Hr Hf]]]].
  exists df. repeat (split; [assumption|]).
  eapply Forall_impl; [|exact Hf]. cbn beta. intros row [c [Ec [_ Hbin]]].
  rewrite Ec, Nat2Z.id. split; [lia|exact Hbin].
Qed.

Lemma df_agg_btc_keeps_all_witness :
  exists df,
    df_agg_btc Sample.bins [1 # 5; -1 # 5; 0] = Ok df
    /\ default_index df
    /\ map Pd.annual_returns df = [1 # 5; -1 # 5; 0]
    /\ Forall (fun row =>
                 (0 <= category row)%Z
                 /\ right_closed_bin Sample.bins (Pd.annual_returns row)
                      (Z.to_nat (category row))) df.
Proof.
  apply (df_agg_btc_keeps_all Sample.bins [1 # 5; -1 # 5; 0]).
  - unfold strictly_increasing, Sample.bins.
    repeat (constructor; try reflexivity).
  - reflexivity.
  - reflexivity.
Defined.

Lemma cut1_outside bins r :
  strictly_increasing bins ->
  edge_le (Fin r) (hd PosInf bins) \/ edge_lt (last bins NegInf) (Fin r) ->
  cut1 bins false r = None.
Proof.
  intros Hinc Hout. apply strictly_increasing_strong in Hinc.
  destruct (searchsorted_left_split bins (Fin r) Hinc) as [Hk [_ Hle]].
  unfold cut1. set (k := searchsorted_left bins (Fin r)) in *.
  assert (Hk' : k = 0%nat \/ k = length bins).
  { destruct Hout as [Hlow|Hhigh].
    - left. subst k. destruct bins as [|e es]; [reflexivity|].
      cbn [hd] in Hlow. cbn [searchsorted_left].
      unfold edge_le in Hlow. now rewrite Hlow.
    - right. destruct (Nat.eq_dec k (length bins)) as [E|E]; [exact E|].
      exfalso. apply (edge_lt_not_le _ _ Hhigh).
      destruct bins as [|e es]; [cbn [length] in *; lia|].
      rewrite last_is_nth, (nth_indep _ NegInf PosInf)
        by (cbn [length]; lia).
      apply Hle. cbn [length] in *. lia. }
  assert (Hnone : (k =? length bins)%nat || (k =? 0)%nat = true).
  { destruct Hk' as [->| ->]; [now rewrite orb_true_r|].
    now rewrite Nat.eqb_refl. }
  destruct bins; cbn [andb]; now rewrite Hnone.
Qed.

Lemma astype_int_missing t :
  Exists (fun r => raw_category r = None) t ->
  astype_int t = Raise ValueError.
Proof.
  unfold astype_int. induction t as [|r t IH]; intros H.
  - inversion H.
  - cbn [mapM]. destruct (raw_category r) as [c|] eqn:Ec; [|reflexivity].
    cbn [bind]. rewrite IH; [reflexivity|].
    inversion H as [? ? Hhd|? ? Htl]; subst; [congruence|exact Htl].
Qed.

Lemma concat_columns_missing (f : Q -> option nat) rets i :
  Exists (fun r => f r = None) rets ->
  Exists (fun r => raw_category r = None)
    (concat_columns i rets (map f rets)).
Proof.
  intros H. revert i. induction H as [r rets Hr|r rets _ IH]; intros i;
    cbn [map concat_columns].
  - now apply Exists_cons_hd.
  - apply Exists_cons_tl, IH.
Qed.

(** X14: with strictly increasing bins, the table of safe-heaven-spy.py
    is built exactly when every return lies above the first edge and not
    above the last: then it has one row per return, indexed 0..n-1; a
    single return on or below the first edge, or above the last, makes
    the integer conversion raise [ValueError]. *)
Theorem df_agg_spy_needs_all_in_range (bins : list edge)
    (annual_returns : list Q) :
  strictly_increasing bins ->
  bins <> [] ->
  (Forall (fun r => edge_lt (hd PosInf bins) (Fin r)
                    /\ edge_le (Fin r) (last bins NegInf)) annual_returns ->
   exists df,
     df_agg_spy bins annual_returns = Ok df
     /\ default_index df
     /\ map Pd.annual_returns df = annual_returns)
  /\ (Exists (fun r => edge_le (Fin r) (hd PosInf bins)
                       \/ edge_lt (last bins NegInf) (Fin r)) annual_returns ->
      df_agg_spy bins annual_returns = Raise ValueError).
Proof.
  intros Hinc Hne. unfold df_agg_spy.
  rewrite pd_cut_increasing by assumption. cbn [bind]. split.
  - intros Hall.
    destruct (astype_int_total (cut1 bins false) annual_returns 0)
      as [df [_ [H2 [Hl [Hr _]]]]].
    { eapply Forall_impl; [|exact Hall]. cbn beta. intros r [Hlo Hhi].
      destruct (cut1_located bins false r Hinc Hlo Hhi) as [i [Hi _]].
      eauto. }
    exists df. split; [exact H2|]. split; [|exact Hr].
    unfold default_index, index. rewrite Hl.
    rewrite <- Hr at 1. rewrite (length_map Pd.annual_returns).
    apply map_ext. intros k. lia.
  - intros Hex. apply astype_int_missing.
    apply (concat_columns_missing (cut1 bins false)).
    eapply Exists_impl; [|exact Hex]. cbn beta. intros r Hr.
    now apply cut1_outside.
Qed.

Lemma df_agg_spy_needs_all_in_range_witness :
  let bins := [Fin (-10); Fin 0; Fin 10] in
  (exists df,
     df_agg_spy bins [1 # 5; -1 # 5] = Ok df
     /\ default_index df
     /\ map Pd.annual_returns df = [1 # 5; -1 # 5])
  /\ df_agg_spy bins [1 # 5; -10] = Raise ValueError.
Proof.
  intros bins.
  assert (Hinc : strictly_increasing bins).
  { unfold strictly_increasing, bins. repeat (constructor; try reflexivity). }
  assert (Hne : bins <> []) by discriminate.
  split.
  - apply (df_agg_spy_needs_all_in_range bins [1 # 5; -1 # 5] Hinc Hne).
    repeat constructor.
  - apply (df_agg_spy_needs_all_in_range bins [1 # 5; -10] Hinc Hne).
    apply Exists_cons_tl, Exists_cons_hd. left. reflexivity.
Defined.

Lemma searchsorted_left_monotone bins x x' :
  x <= x' ->
  (searchsorted_left bins (Fin x) <= searchsorted_left bins (Fin x'))%nat.
Proof.
  intros Hx. induction bins as [|e es IH]; cbn [searchsorted_left]; [lia|].
  destruct (edge_ltb e (Fin x)) eqn:E; [|lia].
  assert (E' : edge_ltb e (Fin x') = true).
  { destruct e as [|y|]; try reflexivity; try discriminate E.
    apply edge_lt_Fin. apply edge_lt_Fin in E. lra. }
  rewrite E'. lia.
Qed.

(** X15: the category never decreases when the return grows: a larger
    return is never put in a lower bin, whatever the bins and with or
    without [include_lowest]. *)
Theorem cut1_monotone (bins : list edge) (include_lowest : bool)
    (r r' : Q) (i i' : nat) :
  r <= r' ->
  cut1 bins include_lowest r = Some i ->
  cut1 bins include_lowest r' = Some i' ->
  (i <= i')%nat.
Proof.
  intros Hr. unfold cut1.
  pose proof (searchsorted_left_monotone bins r r' Hr) as Hmono.
  set (k := searchsorted_left bins (Fin r)) in *.
  set (k' := searchsorted_left bins (Fin r')) in *.
  destruct bins as [|e0 es].
  - destruct ((k =? _)%nat || _); [discriminate|].
    destruct ((k' =? _)%nat || _); [discriminate|].
    intros H H'. injection H as <-. injection H' as <-. lia.
  - assert (Hk : k = if edge_ltb e0 (Fin r)
                     then S (searchsorted_left es (Fin r)) else 0%nat)
      by reflexivity.
    assert (Hk' : k' = if edge_ltb e0 (Fin r')
                       then S (searchsorted_left es (Fin r')) else 0%nat)
      by reflexivity.
    destruct (include_lowest && edge_eqb (Fin r) e0) eqn:El;
      destruct (include_lowest && edge_eqb (Fin r') e0) eqn:El';
      repeat match goal with
        | |- context [if ?b then None else _] => destruct b
        end; try discriminate;
      intros H H'; injection H as <-; injection H' as <-; try lia.
    (* r' on the lowest edge, r not: r is not above it *)
    apply andb_prop in El'. destruct El' as [-> El'].
    destruct e0 as [|y|]; try discriminate El'. cbn in El'.
    apply Qeq_bool_iff in El'.
    assert (Hlt : edge_ltb (Fin y) (Fin r) = false).
    { destruct (edge_ltb (Fin y) (Fin r)) eqn:E; [|reflexivity].
      apply edge_lt_Fin in E. lra. }
    rewrite Hlt in Hk. lia.
Qed.

Lemma cut1_monotone_witness : (3 <= 5)%nat.
Proof.
  apply (cut1_monotone Sample.bins true (-1 # 10) (1 # 5) 3 5).
  - discriminate.
  - reflexivity.
  - reflexivity.
Defined.

(** * From the categorised table to the trajectories *)



(** * Further properties of the efficient-price screen *)

Lemma screen_rows opt target_price eff :
  -1 < eff ->
  screen opt target_price eff
  = Ok (filtered_opt
          (map (fun x => mk_option_row (fst x) (snd x)
                           ((fst x - target_price) / (1 + eff))) opt)).
Proof.
  intros Heff. unfold screen.
  now rewrite add_eff_price_rows by assumption.
Qed.

Lemma le_eff_price_iff K P target_price eff :
  -1 < eff ->
  P <= (K - target_price) / (1 + eff)
  <-> (1 + eff) * P <= K - target_price.
Proof.
  intros Heff. assert (Hpos : 0 < 1 + eff) by lra.
  split; intros H.
  - apply (Qmult_le_l _ _ (/ (1 + eff)));
      [now apply Qinv_lt_0_compat|].
    setoid_replace (/ (1 + eff) * ((1 + eff) * P)) with P
      by (field; lra).
    setoid_replace (/ (1 + eff) * (K - target_price))
      with ((K - target_price) / (1 + eff)) by (field; lra).
    exact H.
  - apply (Qmult_le_l _ _ (1 + eff)); [exact Hpos|].
    setoid_replace ((1 + eff) * ((K - target_price) / (1 + eff)))
      with (K - target_price) by (field; lra).
    exact H.
Qed.



Example monthly_expiries_sample :
  months_later (mk_date 2024 11 17) 3 = mk_date 2025 2 1
  /\ third_friday_of (mk_date 2025 2 1) = mk_date 2025 2 21
  /\ weekday (mk_date 2025 2 21) = 4%Z
  /\ get_next_n_monthly_expiries 3 (mk_date 2024 11 17) 3
     = Some (Ok ["2024-12-20"; "2025-01-17"; "2025-02-21"]%string)
  /\ get_next_n_monthly_expiries_bs (mk_date 2024 11 17) 3
     = Ok ["2024-12-20"; "2025-01-17"; "2025-02-21"]%string.
Proof. repeat split; reflexivity. Qed.

(** * The calendar *)

Lemma days_in_month_bounds y m : (28 <= days_in_month y m <= 31)%Z.
Proof.
  unfold days_in_month. destruct (m =? 2)%Z; [destruct (is_leap y); lia|].
  destruct (_ || _)%Z; lia.
Qed.

Ltac month_cases m H :=
  assert (m = 1 \/ m = 2 \/ m = 3 \/ m = 4 \/ m = 5 \/ m = 6 \/ m = 7
          \/ m = 8 \/ m = 9 \/ m = 10 \/ m = 11 \/ m = 12)%Z
    as H by lia;
  repeat destruct H as [H|H]; subst m.

Lemma days_before_month_succ y m :
  (1 <= m <= 11)%Z ->
  days_before_month y (m + 1) = (days_before_month y m + days_in_month y m)%Z.
Proof.
  intros Hm. month_cases m H; try lia;
    unfold days_before_month, days_in_month; cbn;
    destruct (is_leap y); reflexivity.
Qed.

Lemma days_before_month_december y :
  (days_before_month y 12 + days_in_month y 12
   = if is_leap y then 366 else 365)%Z.
Proof.
  unfold days_before_month, days_in_month. cbn.
  destruct (is_leap y); reflexivity.
Qed.

Lemma days_before_year_succ y :
  days_before_year (y + 1)
  = (days_before_year y + if is_leap y then 366 else 365)%Z.
Proof.
  unfold days_before_year, is_leap.
  replace (y + 1 - 1)%Z with y by lia.
  destruct (Z.eqb_spec (y mod 4) 0) as [H4|H4];
    destruct (Z.eqb_spec (y mod 100) 0) as [H100|H100];
    destruct (Z.eqb_spec (y mod 400) 0) as [H400|H400];
    cbn [andb orb negb];
    Z.to_euclidean_division_equations; lia.
Qed.

Lemma toordinal_next_day d :
  valid d -> toordinal (next_day d) = (toordinal d + 1)%Z.
Proof.
  intros [Hy [Hm Hd]]. unfold next_day, toordinal.
  destruct (Z.ltb_spec (day d) (days_in_month (year d) (month d)));
    cbn [year month day]; [lia|].
  assert (Hlast : day d = days_in_month (year d) (month d)) by lia.
  destruct (Z.ltb_spec (month d) 12); cbn [year month day].
  - rewrite days_before_month_succ by lia. lia.
  - assert (Hdec : month d = 12%Z) by lia.
    rewrite days_before_year_succ, Hlast, Hdec.
    pose proof (days_before_month_december (year d)).
    change (days_before_month (year d + 1) 1) with 0%Z. lia.
Qed.

Lemma next_day_valid d : valid d -> valid (next_day d).
Proof.
  intros [Hy [Hm Hd]]. unfold next_day, valid.
  destruct (Z.ltb_spec (day d) (days_in_month (year d) (month d)));
    cbn [year month day]; [lia|].
  destruct (Z.ltb_spec (month d) 12); cbn [year month day].
  - pose proof (days_in_month_bounds (year d) (month d + 1)). lia.
  - pose proof (days_in_month_bounds (year d + 1) 1). lia.
Qed.

Lemma iter_next_day_valid k d : valid d -> valid (Nat.iter k next_day d).
Proof.
  intros H. induction k as [|k IH]; [exact H|].
  change (Nat.iter (S k) next_day d) with (next_day (Nat.iter k next_day d)).
  now apply next_day_valid.
Qed.

Lemma toordinal_iter k d :
  valid d ->
  toordinal (Nat.iter k next_day d) = (toordinal d + Z.of_nat k)%Z.
Proof.
  intros H. induction k as [|k IH].
  - change (Nat.iter 0 next_day d) with d. lia.
  - change (Nat.iter (S k) next_day d)
      with (next_day (Nat.iter k next_day d)).
    rewrite toordinal_next_day by now apply iter_next_day_valid.
    rewrite IH. lia.
Qed.

(** Days added inside a month only move the day. *)
Lemma iter_next_day_in_month k d :
  (day d + Z.of_nat k <= days_in_month (year d) (month d))%Z ->
  Nat.iter k next_day d = mk_date (year d) (month d) (day d + Z.of_nat k).
Proof.
  induction k as [|k IH]; intros Hk.
  - change (Nat.iter 0 next_day d) with d. destruct d. cbn. f_equal. lia.
  - change (Nat.iter (S k) next_day d)
      with (next_day (Nat.iter k next_day d)).
    rewrite IH by lia. unfold next_day.
    cbn [year month day].
    destruct (Z.ltb_spec (day d + Z.of_nat k)
                (days_in_month (year d) (month d))); [|lia].
    f_equal. lia.
Qed.

Lemma iter_add {A} (f : A -> A) (j k : nat) (x : A) :
  Nat.iter (j + k) f x = Nat.iter j f (Nat.iter k f x).
Proof.
  induction j as [|j IH]; [reflexivity|].
  change (Nat.iter (S j + k) f x) with (f (Nat.iter (j + k) f x)).
  now rewrite IH.
Qed.

(** The month a date lies in, counted from year 0. *)
Lemma months_later_1 d :
  valid d ->
  next_day (mk_date (year d) (month d) (days_in_month (year d) (month d)))
  = months_later d 1.
Proof.
  intros [Hy [Hm Hd]]. unfold next_day, months_later.
  cbn [year month day]. rewrite Z.ltb_irrefl.
  destruct (Z.ltb_spec (month d) 12).
  - f_equal; Z.to_euclidean_division_equations; lia.
  - f_equal; Z.to_euclidean_division_equations; lia.
Qed.

Lemma months_later_1_fields y m dd :
  (1 <= m <= 12)%Z ->
  year (months_later (mk_date y m dd) 1) = (if (m =? 12)%Z then y + 1 else y)%Z
  /\ month (months_later (mk_date y m dd) 1)
     = (if (m =? 12)%Z then 1 else m + 1)%Z.
Proof.
  intros Hm. unfold months_later. cbn [year month].
  destruct (Z.eqb_spec m 12); split;
    Z.to_euclidean_division_equations; lia.
Qed.

Lemma two_months_59 y m :
  (1 <= m <= 12)%Z ->
  (59 <= days_in_month y m
         + days_in_month (if (m =? 12)%Z then y + 1 else y)
             (if (m =? 12)%Z then 1 else m + 1))%Z.
Proof.
  intros Hm. month_cases m H; try lia; cbn; unfold days_in_month; cbn;
    repeat match goal with
      | |- context [is_leap ?y] => destruct (is_leap y)
      end; lia.
Qed.

(** Thirty-two days on from a day up to the 27th is a day of the next
    month, at most four days later in the month. *)
Lemma iter_32_next_month d :
  valid d -> (day d <= 27)%Z ->
  exists day',
    Nat.iter 32 next_day d
    = mk_date (year (months_later d 1)) (month (months_later d 1)) day'
    /\ (day d < day' <= day d + 4)%Z.
Proof.
  intros Hv Hday. pose proof Hv as [Hy [Hm Hd]].
  pose proof (days_in_month_bounds (year d) (month d)) as Hb.
  assert (Hnext : (59 <= days_in_month (year d) (month d)
                        + days_in_month (year (months_later d 1))
                            (month (months_later d 1)))%Z).
  { destruct d as [y m dd]. cbn [year month day] in *.
    destruct (months_later_1_fields y m dd Hm) as [-> ->].
    now apply two_months_59. }
  set (L := days_in_month (year d) (month d)) in *.
  set (a := Z.to_nat (L - day d)).
  set (b := Z.to_nat (day d + 32 - L - 1)).
  assert (E32 : 32%nat = (b + (1 + a))%nat) by (subst a b; lia).
  rewrite E32, iter_add, iter_add.
  rewrite (iter_next_day_in_month a d) by (subst a; fold L; lia).
  replace (day d + Z.of_nat a)%Z with L by (subst a; lia).
  change (Nat.iter 1 next_day ?x) with (next_day x).
  subst L. rewrite (months_later_1 d Hv).
  assert (Hd1 : day (months_later d 1) = 1%Z) by reflexivity.
  rewrite iter_next_day_in_month.
  - eexists. split; [reflexivity|]. rewrite Hd1. subst b. lia.
  - rewrite Hd1. subst b. lia.
Qed.

(** * The monthly expiries *)

Lemma third_friday_from_value nm :
  valid nm -> (year nm <= 9999)%Z ->
  third_friday_from nm = Ok (third_friday_of (replace_day_1 nm))
  /\ (15 <= day (third_friday_of (replace_day_1 nm)) <= 21)%Z
  /\ weekday (third_friday_of (replace_day_1 nm)) = 4%Z
  /\ valid (third_friday_of (replace_day_1 nm)).
Proof.
  intros [Hy [Hm Hd]] Hmax.
  pose proof (days_in_month_bounds (year nm) (month nm)) as Hb.
  set (first := replace_day_1 nm).
  set (w := weekday first).
  assert (Hw : (0 <= w < 7)%Z) by (subst w; unfold weekday; apply Z.mod_pos_bound; lia).
  set (k := ((4 - w + 7) mod 7 + 14)%Z).
  assert (Hk : (14 <= k <= 20)%Z).
  { subst k. pose proof (Z.mod_pos_bound (4 - w + 7) 7). lia. }
  assert (Hday : (15 + (4 - w) mod 7 = 1 + k)%Z).
  { subst k. Z.to_euclidean_division_equations. lia. }
  assert (Etf : third_friday_of first
                = mk_date (year nm) (month nm) (1 + k)).
  { unfold third_friday_of. fold w. rewrite Hday. reflexivity. }
  rewrite Etf. cbn [day].
  split.
  { unfold third_friday_from, add_days. fold first. fold w. fold k.
    rewrite (iter_next_day_in_month (Z.to_nat k) first)
      by (subst first; cbn [replace_day_1 year month day]; lia).
    subst first. cbn [replace_day_1 year month day].
    destruct (Z.ltb_spec 9999 (year nm)); [lia|].
    do 2 f_equal. lia. }
  split; [lia|]. split.
  - assert (Hord : toordinal (mk_date (year nm) (month nm) (1 + k))
                   = (toordinal first + k)%Z).
    { unfold toordinal. subst first. cbn [replace_day_1 year month day]. lia. }
    unfold weekday. rewrite Hord.
    subst k. unfold w, weekday.
    Z.to_euclidean_division_equations. lia.
  - unfold valid. cbn [year month day]. lia.
Qed.

(** X18: the date the loop body computes from [next_month] (line 13) is
    the third Friday of [next_month]'s month: a Friday of that month and
    year whose day is between 15 and 21. *)
Theorem third_friday_from_is_third_friday (next_month : date) :
  valid next_month ->
  (year next_month <= 9999)%Z ->
  exists third_friday,
    third_friday_from next_month = Ok third_friday
    /\ year third_friday = year next_month
    /\ month third_friday = month next_month
    /\ (15 <= day third_friday <= 21)%Z
    /\ weekday third_friday = 4%Z
    /\ valid third_friday.
Proof.
  intros Hv Hmax.
  destruct (third_friday_from_value next_month Hv Hmax)
    as [Htf [Hday [Hw Hvalid]]].
  exists (third_friday_of (replace_day_1 next_month)).
  repeat (split; [assumption || reflexivity|]). exact Hvalid.
Qed.

Lemma third_friday_from_is_third_friday_witness :
  exists third_friday,
    third_friday_from (mk_date 2024 12 3) = Ok third_friday
    /\ year third_friday = 2024%Z
    /\ month third_friday = 12%Z
    /\ (15 <= day third_friday <= 21)%Z
    /\ weekday third_friday = 4%Z
    /\ valid third_friday.
Proof.
  apply (third_friday_from_is_third_friday (mk_date 2024 12 3)).
  - unfold valid. cbn. lia.
  - cbn. lia.
Defined.

(** Months never run backwards, and 32 days on is a later month. *)
Lemma month_index_next_day d :
  valid d ->
  (year d * 12 + month d <= year (next_day d) * 12 + month (next_day d))%Z.
Proof.
  intros [Hy [Hm Hd]]. unfold next_day.
  destruct (Z.ltb_spec (day d) (days_in_month (year d) (month d)));
    cbn [year month]; [lia|].
  destruct (Z.ltb_spec (month d) 12); cbn [year month]; lia.
Qed.

Lemma month_index_iter k d :
  valid d ->
  (year d * 12 + month d
   <= year (Nat.iter k next_day d) * 12 + month (Nat.iter k next_day d))%Z.
Proof.
  intros Hv. induction k as [|k IH]; [cbn; lia|].
  change (Nat.iter (S k) next_day d) with (next_day (Nat.iter k next_day d)).
  pose proof (month_index_next_day _ (iter_next_day_valid k d Hv)). lia.
Qed.

Lemma month_index_iter_32 d :
  valid d ->
  (year d * 12 + month d
   < year (Nat.iter 32 next_day d) * 12 + month (Nat.iter 32 next_day d))%Z.
Proof.
  intros Hv. pose proof Hv as [Hy [Hm Hd]].
  pose proof (days_in_month_bounds (year d) (month d)) as Hb.
  set (L := days_in_month (year d) (month d)) in *.
  set (a := Z.to_nat (L - day d)).
  set (b := (32 - 1 - a)%nat).
  assert (E32 : 32%nat = (b + (1 + a))%nat) by (subst a b; lia).
  rewrite E32, iter_add, iter_add.
  rewrite (iter_next_day_in_month a d) by (subst a; fold L; lia).
  replace (day d + Z.of_nat a)%Z with L by (subst a; lia).
  change (Nat.iter 1 next_day ?x) with (next_day x).
  subst L. rewrite (months_later_1 d Hv).
  assert (Hv1 : valid (months_later d 1)).
  { rewrite <- (months_later_1 d Hv). apply next_day_valid.
    unfold valid. cbn [year month day]. lia. }
  pose proof (month_index_iter b _ Hv1) as Hmono.
  destruct d as [y m dd]. cbn [year month day] in *.
  destruct (months_later_1_fields y m dd Hm) as [Ey Em].
  rewrite Ey, Em in Hmono. destruct (Z.eqb_spec m 12); lia.
Qed.

Lemma date_ltb_later_month a b :
  (1 <= month a <= 12)%Z -> (1 <= month b <= 12)%Z ->
  (year a * 12 + month a < year b * 12 + month b)%Z ->
  date_ltb a b = true.
Proof.
  intros Ha Hb H. unfold date_ltb.
  destruct (Z.ltb_spec (year a) (year b)); [reflexivity|].
  destruct (Z.eqb_spec (year a) (year b)); [|lia].
  destruct (Z.ltb_spec (month a) (month b)); [reflexivity|lia].
Qed.

(** [add_days] when it returns. *)
Lemma add_days_Ok_inv d k d' :
  add_days d k = Ok d' ->
  d' = Nat.iter (Z.to_nat k) next_day d /\ (year d' <= 9999)%Z.
Proof.
  unfold add_days. generalize (Nat.iter (Z.to_nat k) next_day d) as x.
  intros x H. destruct (Z.ltb_spec 9999 (year x)); [discriminate H|].
  assert (E : x = d') by congruence. subst x. split; [reflexivity|assumption].
Qed.

Lemma add_days_32_later cm nm :
  valid cm -> add_days cm 32 = Ok nm ->
  valid nm /\ (year nm <= 9999)%Z
  /\ (year cm * 12 + month cm < year nm * 12 + month nm)%Z.
Proof.
  intros Hv H. destruct (add_days_Ok_inv _ _ _ H) as [E Hmax].
  change (Z.to_nat 32) with 32%nat in E.
  pose proof (month_index_iter_32 cm Hv) as Hlater.
  pose proof (iter_next_day_valid 32 cm Hv) as Hvalid.
  rewrite <- E in Hlater, Hvalid. auto.
Qed.

(** The [while] loop appends at every turn, so it does what the [for]
    loop does and needs no more fuel than dates are asked for. *)
Lemma expiries_while_for (today : date) (k : nat) :
  forall (fuel : nat) (cm : date) (exps : list string) (n : Z),
    valid cm ->
    (1 <= month today <= 12)%Z ->
    (year today * 12 + month today <= year cm * 12 + month cm)%Z ->
    (k <= fuel)%nat ->
    n = Z.of_nat (length exps + k) ->
    expiries_while fuel today cm n exps = Some (expiries_for k cm exps).
Proof.
  induction k as [|k IH]; intros fuel cm exps n Hv Htoday Hmi Hfuel Hn.
  - destruct fuel; cbn [expiries_while expiries_for];
      destruct (Z.ltb_spec (Z.of_nat (length exps)) n); try lia;
      reflexivity.
  - destruct fuel as [|fuel]; [lia|]. cbn [expiries_while expiries_for].
    destruct (Z.ltb_spec (Z.of_nat (length exps)) n); [|lia].
    destruct (add_days cm 32) as [nm|e] eqn:Enm; [|reflexivity].
    cbn [bind].
    destruct (add_days_32_later cm nm Hv Enm) as [Hvnm [Hmax Hlater]].
    destruct (third_friday_from_value nm Hvnm Hmax) as [Etf [_ [_ Hvtf]]].
    rewrite Etf. cbn [bind].
    rewrite date_ltb_later_month.
    + apply IH; try assumption; try lia.
      rewrite length_app. cbn [length]. lia.
    + exact Htoday.
    + destruct Hvnm as [_ [Hm _]]. exact Hm.
    + cbn [third_friday_of replace_day_1 year month]. lia.
Qed.

(** X19: on every valid date from year 1000 on (where [%Y] has four
    digits) and for every [n], the [while] version of
    [get_next_n_monthly_expiries] (safe-heaven-eff-price-opt.py) returns
    within [n] turns of its loop, and returns what the [for] version
    (safe-heaven-eff-price-opt-bs.py) returns, the same list or the same
    [OverflowError]: its test [third_friday > today] never fails. *)
Theorem expiries_versions_agree (today : date) (n : Z) (fuel : nat) :
  valid today ->
  (1000 <= year today)%Z ->
  (Z.to_nat n <= fuel)%nat ->
  get_next_n_monthly_expiries fuel today n
  = Some (get_next_n_monthly_expiries_bs today n).
Proof.
  intros Hv _ Hfuel.
  unfold get_next_n_monthly_expiries, get_next_n_monthly_expiries_bs.
  destruct (Z.le_gt_cases n 0) as [Hn|Hn].
  - replace (Z.to_nat n) with 0%nat by lia. cbn [expiries_for].
    destruct fuel; cbn [expiries_while length];
      destruct (Z.ltb_spec (Z.of_nat 0) n); try lia; reflexivity.
  - destruct Hv as [Hy [Hm Hd]].
    apply expiries_while_for.
    + unfold valid, replace_day_1. cbn [year month day].
      pose proof (days_in_month_bounds (year today) (month today)). lia.
    + exact Hm.
    + cbn [replace_day_1 year month]. lia.
    + exact Hfuel.
    + cbn [length]. lia.
Qed.

Lemma expiries_versions_agree_witness :
  get_next_n_monthly_expiries 3 (mk_date 2024 11 17) 3
  = Some (get_next_n_monthly_expiries_bs (mk_date 2024 11 17) 3).
Proof.
  apply (expiries_versions_agree (mk_date 2024 11 17) 3 3).
  - unfold valid. cbn. lia.
  - cbn. lia.
  - cbn. lia.
Defined.

(** Month arithmetic on [months_later]. *)
Lemma months_later_shift d x k :
  months_later
    (mk_date (year (months_later d 1)) (month (months_later d 1)) x) k
  = months_later d (1 + k).
Proof.
  unfold months_later. cbn [year month].
  f_equal; Z.to_euclidean_division_equations; lia.
Qed.

Lemma months_later_year_bound d k :
  (0 <= k)%Z ->
  (year d * 12 + (month d - 1) + k < 120000)%Z ->
  (year (months_later d k) <= 9999)%Z.
Proof.
  intros Hk H. unfold months_later. cbn [year].
  Z.to_euclidean_division_equations; lia.
Qed.

(** Each step of 32 days drifts at most four days into the month, so the
    first seven steps land in seven consecutive months. *)
Lemma expiries_for_closed (k : nat) :
  forall (cm : date) (exps : list string),
    valid cm ->
    (day cm + 4 * Z.of_nat k <= 31)%Z ->
    (year cm * 12 + (month cm - 1) + Z.of_nat k < 120000)%Z ->
    expiries_for k cm exps
    = Ok (exps ++ map (fun i => strftime_ymd
                         (third_friday_of (months_later cm (Z.of_nat i))))
                    (seq 1 k)).
Proof.
  induction k as [|k IH]; intros cm exps Hv Hday Hmax.
  - cbn [expiries_for seq map]. now rewrite app_nil_r.
  - cbn [expiries_for].
    destruct (iter_32_next_month cm Hv ltac:(lia)) as [d' [E Hd']].
    pose proof (iter_next_day_valid 32 cm Hv) as Hvnm.
    assert (Hy : (year (months_later cm 1) <= 9999)%Z)
      by (apply months_later_year_bound; lia).
    assert (Eadd : add_days cm 32
                   = Ok (mk_date (year (months_later cm 1))
                           (month (months_later cm 1)) d')).
    { unfold add_days. change (Z.to_nat 32) with 32%nat. rewrite E.
      cbn [year]. destruct (Z.ltb_spec 9999 (year (months_later cm 1)));
        [lia|reflexivity]. }
    rewrite E in Hvnm. rewrite Eadd. cbn [bind].
    destruct (third_friday_from_value _ Hvnm Hy) as [Etf _].
    rewrite Etf. cbn [bind].
    rewrite IH.
    + f_equal. rewrite <- app_assoc. f_equal. cbn [app seq map].
      f_equal. rewrite <- (seq_shift k 1), map_map.
      apply map_ext. intros i. rewrite months_later_shift.
      do 3 f_equal. lia.
    + exact Hvnm.
    + cbn [day]. lia.
    + cbn [year month].
      unfold months_later. cbn [year month].
      destruct Hv as [_ [Hm _]].
      Z.to_euclidean_division_equations; lia.
Qed.

(** X20: asked for at most seven dates on a valid date of the years 1000
    to 9998, [get_next_n_monthly_expiries] (safe-heaven-eff-price-opt.py)
    returns, within [n] turns of its loop, the third Fridays of the [n]
    months that follow today's month, in order and formatted
    [%Y-%m-%d]. *)
Theorem expiries_are_third_fridays (today : date) (n : Z) (fuel : nat) :
  valid today ->
  (n <= 7)%Z ->
  (1000 <= year today < 9999)%Z ->
  (Z.to_nat n <= fuel)%nat ->
  get_next_n_monthly_expiries fuel today n
  = Some (Ok (map (fun i => strftime_ymd
                     (third_friday_of (months_later today (Z.of_nat i))))
                (seq 1 (Z.to_nat n)))).
Proof.
  intros Hv Hn Hy Hfuel. pose proof Hv as [Hy1 [Hm Hd]].
  assert (Hv1 : valid (replace_day_1 today)).
  { unfold valid, replace_day_1. cbn [year month day].
    pose proof (days_in_month_bounds (year today) (month today)). lia. }
  unfold get_next_n_monthly_expiries.
  destruct (Z.le_gt_cases n 0) as [Hn0|Hn0].
  - replace (Z.to_nat n) with 0%nat by lia. cbn [seq map].
    destruct fuel; cbn [expiries_while length];
      destruct (Z.ltb_spec (Z.of_nat 0) n); try lia; reflexivity.
  - rewrite (expiries_while_for today (Z.to_nat n)); try assumption.
    + f_equal.
      rewrite expiries_for_closed; try assumption.
      * reflexivity.
      * cbn [replace_day_1 day]. lia.
      * cbn [replace_day_1 year month]. lia.
    + cbn [replace_day_1 year month]. lia.
    + cbn [length]. lia.
Qed.

Lemma expiries_are_third_fridays_witness :
  get_next_n_monthly_expiries 3 (mk_date 2024 11 17) 3
  = Some (Ok (map (fun i => strftime_ymd
                     (third_friday_of
                        (months_later (mk_date 2024 11 17) (Z.of_nat i))))
                (seq 1 (Z.to_nat 3)))).
Proof.
  apply (expiries_are_third_fridays (mk_date 2024 11 17) 3 3).
  - unfold valid. cbn. lia.
  - lia.
  - cbn. lia.
  - cbn. lia.
Defined.

(** * A stricter screen *)

(** X21: a stricter screen keeps fewer options.  With last prices that
    are not negative, raising the efficiency boundary [eff] (above -1) or
    the target price keeps only options the laxer screen keeps too, each
    with an efficient price that is not larger. *)
Theorem screen_stricter_keeps_fewer (opt : list (Q * Q))
    (target_price target_price' eff eff' : Q) :
  -1 < eff -> eff <= eff' ->
  target_price <= target_price' ->
  Forall (fun x => 0 <= snd x) opt ->
  exists kept kept',
    screen opt target_price eff = Ok kept
    /\ screen opt target_price' eff' = Ok kept'
    /\ forall x', In x' kept' ->
         exists x, In x kept
                   /\ strike x = strike x'
                   /\ lastPrice x = lastPrice x'
                   /\ eff_price x' <= eff_price x.
Proof.
  intros Heff Heff' Ht Hpos.
  rewrite (screen_rows opt target_price eff Heff).
  rewrite (screen_rows opt target_price' eff') by lra.
  do 2 eexists. split; [reflexivity|]. split; [reflexivity|].
  intros x'. unfold filtered_opt.
  rewrite filter_In, in_map_iff, Qle_bool_iff.
  intros [[[K P] [<- Hin]] Hle]. cbn [strike lastPrice eff_price fst snd] in *.
  rewrite Forall_forall in Hpos. pose proof (Hpos _ Hin) as HP.
  cbn [snd] in HP.
  apply le_eff_price_iff in Hle; [|lra].
  assert (Hnn : 0 <= eff' * P - eff * P).
  { setoid_replace (eff' * P - eff * P) with ((eff' - eff) * P) by ring.
    apply Qmult_le_0_compat; lra. }
  assert (Hkeep : (1 + eff) * P <= K - target_price) by lra.
  exists (mk_option_row K P ((K - target_price) / (1 + eff))).
  cbn [strike lastPrice eff_price].
  split; [|split; [reflexivity|split; [reflexivity|]]].
  - rewrite filter_In, in_map_iff, Qle_bool_iff.
    cbn [lastPrice eff_price]. split.
    + exists (K, P). split; [reflexivity|exact Hin].
    + apply le_eff_price_iff; assumption.
  - apply le_eff_price_iff; [exact Heff|].
    set (v' := (K - target_price') / (1 + eff')).
    assert (HPP : 0 <= (1 + eff') * P)
      by (apply Qmult_le_0_compat; lra).
    assert (Hv' : 0 <= v') by (apply Qle_shift_div_l; lra).
    assert (E : (1 + eff') * v' == K - target_price')
      by (subst v'; field; lra).
    assert (Hd : 0 <= (eff' - eff) * v')
      by (apply Qmult_le_0_compat; lra).
    lra.
Qed.

Lemma screen_stricter_keeps_fewer_witness :
  exists kept kept',
    screen [(80, 1 # 2); (100, 1)] 85 (34 # 5) = Ok kept
    /\ screen [(80, 1 # 2); (100, 1)] 90 (8) = Ok kept'
    /\ forall x', In x' kept' ->
         exists x, In x kept
                   /\ strike x = strike x'
                   /\ lastPrice x = lastPrice x'
                   /\ eff_price x' <= eff_price x.
Proof.
  apply (screen_stricter_keeps_fewer [(80, 1 # 2); (100, 1)] 85 90
           (34 # 5) 8).
  - vm_compute. reflexivity.
  - vm_compute. discriminate.
  - vm_compute. discriminate.
  - repeat (apply Forall_cons || apply Forall_nil); vm_compute; discriminate.
Defined.

(** * The plotted series *)

Lemma nth_zip_with (f : Q -> Q -> Q) (a b : list Q) (t : nat) :
  (t < length a)%nat -> (t < length b)%nat ->
  nth t (zip_with f a b) 0 = f (nth t a 0) (nth t b 0).
Proof.
  revert b t. induction a as [|x a IH]; intros [|y b] [|t] Ha Hb;
    cbn in *; try lia; [reflexivity|]. apply IH; lia.
Qed.

Lemma length_zip_with (f : Q -> Q -> Q) (a b : list Q) :
  length a = length b -> length (zip_with f a b) = length a.
Proof.
  revert b. induction a as [|x a IH]; intros [|y b] H; cbn in *;
    try lia. f_equal. apply IH. lia.
Qed.

Section Reduce.

Variable f : Q -> Q -> Q.
Variable R : Q -> Q -> Prop.
Hypothesis R_refl : forall a, R a a.
Hypothesis R_trans : forall a b c, R a b -> R b c -> R a c.
Hypothesis f_left : forall a b, R (f a b) a.
Hypothesis f_right : forall a b, R (f a b) b.

Lemma fold_reduce_bound (c : nat) (rs : list (list Q)) :
  forall r,
    length r = c ->
    Forall (fun p => length p = c) rs ->
    length (fold_left (zip_with f) rs r) = c
    /\ forall t p, (t < c)%nat -> In p (r :: rs) ->
         R (nth t (fold_left (zip_with f) rs r) 0) (nth t p 0).
Proof.
  induction rs as [|r' rs IH]; intros r Hr Hrs.
  - cbn [fold_left]. split; [exact Hr|].
    intros t p Ht [<-|[]]. apply R_refl.
  - apply Forall_cons_iff in Hrs as [Hr' Hrs'].
    cbn [fold_left].
    assert (Hz : length (zip_with f r r') = c)
      by (rewrite length_zip_with; congruence).
    destruct (IH (zip_with f r r') Hz Hrs') as [Hlen Hb].
    split; [exact Hlen|].
    intros t p Ht Hin.
    assert (Hacc : R (nth t (fold_left (zip_with f) rs (zip_with f r r')) 0)
                     (nth t (zip_with f r r') 0))
      by (apply Hb; [exact Ht|now left]).
    rewrite nth_zip_with in Hacc by lia.
    destruct Hin as [<-|[<-|Hin]].
    + eapply R_trans; [exact Hacc|apply f_left].
    + eapply R_trans; [exact Hacc|apply f_right].
    + apply Hb; [exact Ht|now right].
Qed.

End Reduce.

Lemma minimum_left a b : minimum a b <= a.
Proof. unfold minimum. destruct (Qlt_le_dec b a); lra. Qed.

Lemma minimum_right a b : minimum a b <= b.
Proof. unfold minimum. destruct (Qlt_le_dec b a); lra. Qed.

Lemma maximum_left a b : a <= maximum a b.
Proof. unfold maximum. destruct (Qlt_le_dec a b); lra. Qed.

Lemma maximum_right a b : b <= maximum a b.
Proof. unfold maximum. destruct (Qlt_le_dec a b); lra. Qed.

Lemma band_bounds (m : ndarray2 Q) :
  rectangular m -> rows m <> [] ->
  exists y1 y2,
    min_axis0 m = Ok y1 /\ max_axis0 m = Ok y2
    /\ length y1 = ncols m /\ length y2 = ncols m
    /\ forall t p, (t < ncols m)%nat -> In p (rows m) ->
         nth t y1 0 <= nth t p 0 <= nth t y2 0.
Proof.
  unfold rectangular, min_axis0, max_axis0.
  destruct (rows m) as [|r rs] eqn:E; intros Hrect Hne; [congruence|].
  apply Forall_cons_iff in Hrect as [Hr Hrs].
  destruct (fold_reduce_bound minimum Qle Qle_refl Qle_trans
              minimum_left minimum_right (ncols m) rs r Hr Hrs)
    as [Hl1 Hb1].
  destruct (fold_reduce_bound maximum (fun a b => b <= a)
              Qle_refl (fun a b c H H' => Qle_trans _ _ _ H' H)
              maximum_left maximum_right (ncols m) rs r Hr Hrs)
    as [Hl2 Hb2].
  do 2 eexists. repeat (split; [reflexivity || eassumption|]).
  intros t p Ht Hin. split; [now apply Hb1|now apply Hb2].
Qed.

Lemma getitem_In {A} (a : list A) (i : Z) (x : A) :
  getitem a i = Ok x -> In x a.
Proof.
  unfold getitem. destruct (_ && _)%bool; [|discriminate].
  destruct (nth_error a _) as [y|] eqn:E; [|discriminate].
  intros H. injection H as <-. eapply nth_error_In; exact E.
Qed.

Lemma getQuantilePath_path_In (m : ndarray2 Q) (q v : Q) (path : list Q) :
  getQuantilePath m q = Ok (v, path) -> In path (rows m).
Proof.
  intros H. unfold getQuantilePath in H.
  destruct (last_column m) as [col|e]; [|discriminate H]. cbn [bind] in H.
  destruct (Np.quantile col q) as [w|e]; [|discriminate H].
  cbn [bind] in H.
  destruct (argmin _) as [i|e]; [|discriminate H]. cbn [bind] in H.
  destruct (getitem (rows m) (Z.of_nat i)) as [p|e] eqn:Ep;
    [|discriminate H].
  cbn [bind] in H. injection H as _ <-. eapply getitem_In; exact Ep.
Qed.

(** X22: whenever [getQuantilePath] returns a path of a rectangular
    array, the band the scripts shade between [min(axis=0)] and
    [max(axis=0)] exists and the path lies within it at every period. *)
Theorem quantile_path_within_band (trajectories : ndarray2 Q) (q : Q)
    (quantile : Q) (path : list Q) :
  rectangular trajectories ->
  getQuantilePath trajectories q = Ok (quantile, path) ->
  exists y1 y2,
    min_axis0 trajectories = Ok y1
    /\ max_axis0 trajectories = Ok y2
    /\ length y1 = length path /\ length y2 = length path
    /\ forall t, (t < length path)%nat ->
         nth t y1 0 <= nth t path 0 <= nth t y2 0.
Proof.
  intros Hrect H. pose proof (getQuantilePath_path_In _ _ _ _ H) as Hin.
  assert (Hne : rows trajectories <> []) by (intros E; rewrite E in Hin; exact Hin).
  assert (Hlen : length path = ncols trajectories).
  { unfold rectangular in Hrect. rewrite Forall_forall in Hrect.
    now apply Hrect. }
  destruct (band_bounds trajectories Hrect Hne)
    as [y1 [y2 [E1 [E2 [L1 [L2 Hb]]]]]].
  exists y1, y2. rewrite Hlen. repeat (split; [assumption|]).
  intros t Ht. now apply Hb.
Qed.

Lemma quantile_path_within_band_witness :
  exists y1 y2,
    min_axis0 (mk_ndarray2 2 [[1; 2]; [3; 1]]) = Ok y1
    /\ max_axis0 (mk_ndarray2 2 [[1; 2]; [3; 1]]) = Ok y2
    /\ length y1 = length [1; 2] /\ length y2 = length [1; 2]
    /\ forall t, (t < length [1; 2])%nat ->
         nth t y1 0 <= nth t [1; 2] 0 <= nth t y2 0.
Proof.
  apply (quantile_path_within_band (mk_ndarray2 2 [[1; 2]; [3; 1]]) (1 # 2)
           (3 # 2) [1; 2]).
  - repeat constructor.
  - reflexivity.
Defined.



Lemma nth_map_Q (f : Q -> Q) (l : list Q) (t : nat) :
  (t < length l)%nat -> nth t (map f l) 0 = f (nth t l 0).
Proof.
  intros Ht. rewrite (nth_indep (map f l) 0 (f 0))
    by (rewrite length_map; lia).
  apply map_nth.
Qed.



Lemma linspace_point (a b : Q) (num i : nat) :
  (i < num)%nat ->
  nth i (linspace a b num) 0
  = a + inject_Z (Z.of_nat i)
        * ((b - a) / inject_Z (Z.of_nat (num - 1))).
Proof.
  intros Hi. unfold linspace.
  rewrite (nth_indep _ 0 ((fun i => a + inject_Z (Z.of_nat i)
                              * ((b - a) / inject_Z (Z.of_nat (num - 1))))
                            0%nat))
    by (rewrite length_map, length_seq; exact Hi).
  rewrite (map_nth (fun i => a + inject_Z (Z.of_nat i)
                              * ((b - a) / inject_Z (Z.of_nat (num - 1))))).
  now rewrite seq_nth.
Qed.

Lemma linspace_step_nonneg (a b : Q) (num : nat) :
  a <= b -> 0 <= (b - a) / inject_Z (Z.of_nat (num - 1)).
Proof.
  intros Hab. unfold Qdiv. apply Qmult_le_0_compat; [lra|].
  apply Qinv_le_0_compat. change 0 with (inject_Z 0).
  rewrite <- Zle_Qle. lia.
Qed.

Lemma linspace_monotone (a b : Q) (num i j : nat) :
  a <= b -> (i <= j)%nat -> (j < num)%nat ->
  nth i (linspace a b num) 0 <= nth j (linspace a b num) 0.
Proof.
  intros Hab Hij Hj. rewrite !linspace_point by lia.
  pose proof (linspace_step_nonneg a b num Hab) as Hstep.
  assert (Hq : inject_Z (Z.of_nat i) <= inject_Z (Z.of_nat j))
    by (rewrite <- Zle_Qle; lia).
  pose proof (Qmult_le_compat_r _ _ _ Hq Hstep). lra.
Qed.




Lemma maximum_zero_monotone (x y : Q) :
  x <= y -> maximum x 0 <= maximum y 0.
Proof.
  intros H. unfold maximum.
  destruct (Qlt_le_dec x 0); destruct (Qlt_le_dec y 0); lra.
Qed.


Lemma payoff_point (option_type : string) (strike_price premium : Q)
    (i : nat) :
  (i < 100)%nat ->
  let s := nth i (fst (plot_option_payoff option_type strike_price premium)) 0 in
  nth i (snd (plot_option_payoff option_type strike_price premium)) 0
  = if String.eqb option_type "call"
    then maximum (s - strike_price) 0 - premium
    else maximum (strike_price - s) 0 - premium.
Proof.
  intros Hi. unfold plot_option_payoff. cbn [fst snd].
  assert (Hlen : length (linspace ((1 # 2) * strike_price)
                           ((3 # 2) * strike_price) 100) = 100%nat)
    by (unfold linspace; now rewrite length_map, length_seq).
  destruct (String.eqb option_type "call");
    now rewrite nth_map_Q by (rewrite Hlen; exact Hi).
Qed.



(** X25: for a strike that is not negative, the profit/loss plotted for
    a call never decreases along the price grid, and the one plotted for
    any other option type (a put) never increases. *)
Theorem option_payoff_monotone (option_type : string)
    (strike_price premium : Q) (i j : nat) :
  0 <= strike_price ->
  (i <= j)%nat -> (j < 100)%nat ->
  if String.eqb option_type "call"
  then nth i (snd (plot_option_payoff option_type strike_price premium)) 0
       <= nth j (snd (plot_option_payoff option_type strike_price premium)) 0
  else nth j (snd (plot_option_payoff option_type strike_price premium)) 0
       <= nth i (snd (plot_option_payoff option_type strike_price premium)) 0.
Proof.
  intros HK Hij Hj.
  rewrite (payoff_point option_type strike_price premium i ltac:(lia)).
  rewrite (payoff_point option_type strike_price premium j Hj).
  cbn zeta. unfold plot_option_payoff. cbn [fst].
  pose proof (linspace_monotone ((1 # 2) * strike_price)
                ((3 # 2) * strike_price) 100 i j
                ltac:(lra) Hij Hj) as Hmono.
  set (s := nth i _ 0) in *. set (s' := nth j _ 0) in *.
  destruct (String.eqb option_type "call").
  - pose proof (maximum_zero_monotone (s - strike_price) (s' - strike_price)
                  ltac:(lra)). lra.
  - pose proof (maximum_zero_monotone (strike_price - s') (strike_price - s)
                  ltac:(lra)). lra.
Qed.

Lemma option_payoff_monotone_witness :
  nth 10 (snd (plot_option_payoff "call" 420 5)) 0
  <= nth 90 (snd (plot_option_payoff "call" 420 5)) 0.
Proof.
  apply (option_payoff_monotone "call" 420 5 10 90).
  - vm_compute. discriminate.
  - lia.
  - lia.
Defined.
